(** * fix_configs.py: the batch text patcher, embedded and verified

    The script lists a directory, keeps the names ending in [.cs], reads each
    file as UTF-8 text, applies four literal [str.replace] calls in a fixed
    order, and writes the file back when the text changed.

    Python [str] values are sequences of Unicode code points: a text is a
    [list Z].  File contents on disk are byte sequences, also [list Z], each
    element meant to lie in [0, 256). *)

From Stdlib Require Import Ascii String.
From Stdlib Require Import ZArith List Bool Lia Permutation.
Import ListNotations.
Local Open Scope Z_scope.

(** ** Texts *)

Definition text := list Z.

(** An ASCII literal as a text. *)
Definition str (s : string) : text :=
  map (fun a => Z.of_N (N_of_ascii a)) (list_ascii_of_string s).

(** The double-quote character, code point 34. *)
Definition dq : Z := 34.

(** [s.startswith(p)] *)
Fixpoint startswith (s p : text) {struct p} : bool :=
  match p with
  | [] => true
  | a :: p' =>
      match s with
      | [] => false
      | b :: s' => (a =? b) && startswith s' p'
      end
  end.

(** [s.endswith(p)] *)
Definition endswith (s p : text) : bool :=
  (length p <=? length s)%nat && startswith (skipn (length s - length p) s) p.

(** [p in s] *)
Fixpoint contains (s p : text) : bool :=
  startswith s p ||
  match s with
  | [] => false
  | _ :: s' => contains s' p
  end.

(** Number of positions of [s] at which [p] occurs. *)
Fixpoint occurrences (s p : text) : nat :=
  ((if startswith s p then 1 else 0) +
   match s with
   | [] => 0
   | _ :: s' => occurrences s' p
   end)%nat.

(** [str.replace] scans left to right: at a position where [old] occurs it
    emits [new] and resumes right after the occurrence, otherwise it copies
    one character.  [skip] counts the characters of the current occurrence
    that are still to be passed over. *)
Fixpoint replace_scan (old new : text) (skip : nat) (s : text) : text :=
  match s with
  | [] => []
  | c :: s' =>
      match skip with
      | S k => replace_scan old new k s'
      | O =>
          if startswith s old
          then new ++ replace_scan old new (length old - 1) s'
          else c :: replace_scan old new 0 s'
      end
  end.

(** [s.replace(old, new)].  With an empty [old], Python puts [new] before
    every character and at the end. *)
Definition replace (s old new : text) : text :=
  match old with
  | [] => new ++ flat_map (fun c => c :: new) s
  | _ :: _ => replace_scan old new 0 s
  end.

(** ** The constants of the script *)

Definition GETUTCDATE : text := str "GETUTCDATE()".
Definition NOW : text := str "NOW()".

(** [HasColumnType("ty")] *)
Definition HasColumnType (ty : string) : text :=
  str "HasColumnType(" ++ [dq] ++ str ty ++ [dq] ++ str ")".

(** The body of the loop between the read and the comparison: the four
    [content = content.replace(...)] statements. *)
Definition transform (content : text) : text :=
  let content := replace content GETUTCDATE NOW in
  let content :=
    replace content (HasColumnType "datetime")
            (HasColumnType "timestamp with time zone") in
  let content :=
    replace content (HasColumnType "NVARCHAR(MAX)") (HasColumnType "text") in
  let content :=
    replace content (HasColumnType "nvarchar(max)") (HasColumnType "text") in
  content.

(** Text equality, [a == b]. *)
Fixpoint text_eqb (a b : text) : bool :=
  match a, b with
  | [], [] => true
  | x :: a', y :: b' => (x =? y) && text_eqb a' b'
  | _, _ => false
  end.

(** ** The UTF-8 codec and text-mode newlines *)

Definition bytes := list Z.

Definition is_cont (b : Z) : bool := (0x80 <=? b) && (b <? 0xC0).

Definition is_surrogate (c : Z) : bool := (0xD800 <=? c) && (c <? 0xE000).

(** Strict UTF-8 decoding ([errors='strict']): overlong forms, surrogates,
    code points above U+10FFFF and truncated sequences are rejected. *)
Fixpoint utf8_decode (bs : bytes) : option text :=
  match bs with
  | [] => Some []
  | b0 :: r1 =>
      if (0 <=? b0) && (b0 <? 0x80) then
        option_map (cons b0) (utf8_decode r1)
      else if (0xC2 <=? b0) && (b0 <? 0xE0) then
        match r1 with
        | b1 :: r2 =>
            if is_cont b1
            then option_map (cons ((b0 - 0xC0) * 64 + (b1 - 0x80)))
                            (utf8_decode r2)
            else None
        | _ => None
        end
      else if (0xE0 <=? b0) && (b0 <? 0xF0) then
        match r1 with
        | b1 :: b2 :: r3 =>
            let c := (b0 - 0xE0) * 4096 + (b1 - 0x80) * 64 + (b2 - 0x80) in
            if is_cont b1 && is_cont b2 && (0x800 <=? c) && negb (is_surrogate c)
            then option_map (cons c) (utf8_decode r3)
            else None
        | _ => None
        end
      else if (0xF0 <=? b0) && (b0 <? 0xF5) then
        match r1 with
        | b1 :: b2 :: b3 :: r4 =>
            let c := (b0 - 0xF0) * 262144 + (b1 - 0x80) * 4096
                     + (b2 - 0x80) * 64 + (b3 - 0x80) in
            if is_cont b1 && is_cont b2 && is_cont b3
               && (0x10000 <=? c) && (c <? 0x110000)
            then option_map (cons c) (utf8_decode r4)
            else None
        | _ => None
        end
      else None
  end.

Definition encode_char (c : Z) : option bytes :=
  if c <? 0 then None
  else if c <? 0x80 then Some [c]
  else if c <? 0x800 then Some [0xC0 + c / 64; 0x80 + c mod 64]
  else if c <? 0x10000 then
    if is_surrogate c then None
    else Some [0xE0 + c / 4096; 0x80 + (c / 64) mod 64; 0x80 + c mod 64]
  else if c <? 0x110000 then
    Some [0xF0 + c / 262144; 0x80 + (c / 4096) mod 64;
          0x80 + (c / 64) mod 64; 0x80 + c mod 64]
  else None.

(** Strict UTF-8 encoding: a surrogate cannot be encoded. *)
Fixpoint utf8_encode (t : text) : option bytes :=
  match t with
  | [] => Some []
  | c :: r =>
      match encode_char c, utf8_encode r with
      | Some a, Some b => Some (a ++ b)
      | _, _ => None
      end
  end.

(** A file opened in text mode with the default [newline=None] is read with
    universal newlines: CR LF and a lone CR both arrive as LF. *)
Fixpoint universal_newlines (t : text) : text :=
  match t with
  | [] => []
  | c :: r =>
      if c =? 13 then
        10 :: match r with
              | d :: r' =>
                  if d =? 10 then universal_newlines r' else universal_newlines r
              | [] => []
              end
      else c :: universal_newlines r
  end.

(** ** The file system and the process *)

(** An entry of a directory: a regular file with its bytes and the permission
    of the process to read and to write it, a subdirectory, or a symbolic
    link whose target does not exist.  Every file has one name here, and a
    write that begins is completed: several names for one file and a device
    that fails in the middle of a write are outside this model. *)
#[warnings="-register-all"]
Inductive node : Type :=
  | File (data : bytes) (readable writable : bool)
  | Subdir (children : list (text * node))
  | Broken.

(** What [config_dir] names: nothing, something that is not a directory, or
    a directory with its entries in listing order. *)
Inductive target : Type :=
  | NoSuchDir
  | NotDir
  | Dir (listable : bool) (entries : list (text * node)).

Inductive error : Type :=
  | FileNotFoundError
  | NotADirectoryError
  | IsADirectoryError
  | PermissionError
  | UnicodeDecodeError
  | UnicodeEncodeError.

(** The calls the process makes on the file system, as attempted. *)
Inductive op : Type :=
  | OpListdir
  | OpRead (filename : text)
  | OpWrite (filename : text).

Record world : Type := World {
  fs : target;
  stdout : list text;   (* one element per [print] call *)
  ops : list op
}.

Fixpoint lookup (es : list (text * node)) (name : text) : option node :=
  match es with
  | [] => None
  | (n, nd) :: es' => if text_eqb n name then Some nd else lookup es' name
  end.

(** Replace the entry called [name], or add it at the end. *)
Fixpoint store (es : list (text * node)) (name : text) (nd : node)
  : list (text * node) :=
  match es with
  | [] => [(name, nd)]
  | (n, x) :: es' =>
      if text_eqb n name then (n, nd) :: es' else (n, x) :: store es' name nd
  end.

(** A computation of the script: it reads and changes the world, and
    either returns a value or raises. An exception leaves the world as it
    was when it was raised: nothing is caught, nothing is undone. *)
Inductive outcome (A : Type) : Type :=
  | Return (a : A)
  | Raise (e : error).
Arguments Return {A} a.
Arguments Raise {A} e.

Definition io (A : Type) : Type := world -> outcome A * world.

Definition ret {A : Type} (a : A) : io A := fun w => (Return a, w).

Definition bind {A B : Type} (m : io A) (k : A -> io B) : io B :=
  fun w =>
    match m w with
    | (Return a, w') => k a w'
    | (Raise e, w') => (Raise e, w')
    end.

Notation "x <- m ;; k" := (bind m (fun x => k))
  (at level 61, m at next level, right associativity).
Notation "m ;; k" := (bind m (fun _ => k))
  (at level 61, right associativity).

Definition log (o : op) (w : world) : world :=
  World (fs w) (stdout w) (ops w ++ [o]).

(** [os.listdir(config_dir)] *)
Definition listdir : io (list text) := fun w =>
  let w := log OpListdir w in
  match fs w with
  | NoSuchDir => (Raise FileNotFoundError, w)
  | NotDir => (Raise NotADirectoryError, w)
  | Dir listable entries =>
      if listable then (Return (map fst entries), w)
      else (Raise PermissionError, w)
  end.

(** What opening [filename] inside [config_dir] for reading and reading it
    all gives: the text, or the exception. *)
Definition load (t : target) (filename : text) : outcome text :=
  match t with
  | NoSuchDir => Raise FileNotFoundError
  | NotDir => Raise NotADirectoryError
  | Dir _ entries =>
      match lookup entries filename with
      | None => Raise FileNotFoundError
      | Some Broken => Raise FileNotFoundError
      | Some (Subdir _) => Raise IsADirectoryError
      | Some (File data readable _) =>
          if readable then
            match utf8_decode data with
            | Some t => Return (universal_newlines t)
            | None => Raise UnicodeDecodeError
            end
          else Raise PermissionError
      end
  end.

(** What opening [filename] inside [config_dir] for writing and writing
    [content] does to the directory.  Opening truncates the file (or creates
    it, also through a link whose target is missing); the text is then
    encoded and written.  The interpreter is a POSIX
    one (the script starts with an [env] line), where [os.linesep] is LF and
    text is written as it is. *)
Definition save (t : target) (filename content : text)
  : outcome unit * target :=
  match t with
  | NoSuchDir => (Raise FileNotFoundError, t)
  | NotDir => (Raise NotADirectoryError, t)
  | Dir l entries =>
      let put nd := Dir l (store entries filename nd) in
      match lookup entries filename with
      | Some (Subdir _) => (Raise IsADirectoryError, t)
      | Some (File _ r true) =>
          match utf8_encode content with
          | Some bs => (Return tt, put (File bs r true))
          | None => (Raise UnicodeEncodeError, put (File [] r true))
          end
      | Some (File _ _ false) => (Raise PermissionError, t)
      | Some Broken | None =>
          match utf8_encode content with
          | Some bs => (Return tt, put (File bs true true))
          | None => (Raise UnicodeEncodeError, put (File [] true true))
          end
      end
  end.

(** [with open(filepath, 'r', encoding='utf-8') as f: content = f.read()],
    where [filepath] is [filename] inside [config_dir]. *)
Definition read_text (filename : text) : io text := fun w =>
  (load (fs w) filename, log (OpRead filename) w).

(** [with open(filepath, 'w', encoding='utf-8') as f: f.write(content)] *)
Definition write_text (filename content : text) : io unit := fun w =>
  let w := log (OpWrite filename) w in
  let (o, t) := save (fs w) filename content in
  (o, World t (stdout w) (ops w)).

(** What standard output can take: it encodes in UTF-8 and is strict, so a
    line with a surrogate (as a file name that is not valid UTF-8 gives)
    cannot be printed. *)
Definition printable (line : text) : bool :=
  match utf8_encode line with
  | Some _ => true
  | None => false
  end.

(** [print(line)]: the line goes out, or the encoder raises and nothing
    does. *)
Definition print (line : text) : io unit := fun w =>
  if printable line
  then (Return tt, World (fs w) (stdout w ++ [line]) (ops w))
  else (Raise UnicodeEncodeError, w).

Definition fixed_line (filename : text) : text := str "Fixed: " ++ filename.

Definition done_message : text :=
  [10] ++ str "Done! All basic PostgreSQL fixes applied.".

(** [cs_files = [f for f in os.listdir(config_dir) if f.endswith('.cs')]],
    as a function of the listing. *)
Definition cs_files (listing : list text) : list text :=
  filter (fun f => endswith f (str ".cs")) listing.

(** The guarded write at the end of the loop body:
    [if content != original_content: write; print]. *)
Definition maybe_write (filename original_content content : text) : io unit :=
  if negb (text_eqb content original_content) then
    write_text filename content ;;
    print (fixed_line filename)
  else ret tt.

(** The body of [for filename in cs_files]. *)
Definition process_file (filename : text) : io unit :=
  content <- read_text filename ;;
  let original_content := content in
  let content := transform content in
  maybe_write filename original_content content.

Fixpoint for_each {A : Type} (l : list A) (body : A -> io unit) : io unit :=
  match l with
  | [] => ret tt
  | x :: l' => body x ;; for_each l' body
  end.

(** The whole script. *)
Definition run : io unit :=
  listing <- listdir ;;
  for_each (cs_files listing) process_file ;;
  print done_message.

(** ** The specification's wording of a rule

    "Replacing every non-overlapping occurrence of the pattern, left to
    right": find the leftmost occurrence, keep what precedes it, put the
    replacement, and go on after the occurrence. *)

(** Index of the leftmost occurrence of [p] in [s], if any ([s.find(p)]). *)
Fixpoint find (s p : text) : option nat :=
  if startswith s p then Some 0%nat
  else match s with
       | [] => None
       | _ :: s' => option_map S (find s' p)
       end.

Fixpoint replace_all_upto (fuel : nat) (s old new : text) : text :=
  match fuel with
  | O => s
  | S fuel' =>
      match find s old with
      | None => s
      | Some i =>
          firstn i s ++ new
          ++ replace_all_upto fuel' (skipn (i + length old) s) old new
      end
  end.

(** A nonempty pattern has at most [length s] disjoint occurrences in [s]. *)
Definition replace_all (s old new : text) : text :=
  replace_all_upto (length s) s old new.

(** The rule list as the specification words it: ordered pairs of a literal
    pattern and a literal replacement. *)
Definition rules : list (text * text) :=
  [ (GETUTCDATE, NOW);
    (HasColumnType "datetime", HasColumnType "timestamp with time zone");
    (HasColumnType "NVARCHAR(MAX)", HasColumnType "text");
    (HasColumnType "nvarchar(max)", HasColumnType "text") ].

(** [apply_rules] of the specification: a left fold over the rules, each
    rule reading the output of the previous one. *)
Definition apply_rules (content : text) (rs : list (text * text)) : text :=
  fold_left (fun acc r => replace_all acc (fst r) (snd r)) rs content.

(** ** Overlap conditions between literals

    These are checked by computation on the literals of the script. *)

(** One of [a], [b] is a prefix of the other. *)
Definition comparable (a b : text) : bool := startswith a b || startswith b a.

(** No occurrence of [q] can begin at a position inside [m], whatever
    follows [m]. *)
Definition starts_clear (m q : text) : bool :=
  forallb (fun j => negb (comparable (skipn j m) q)) (seq 0 (length m)).

(** No occurrence of [q] that begins before [m] can run into [m], whatever
    precedes and follows [m]. *)
Definition entry_clear (q m : text) : bool :=
  forallb (fun i => negb (comparable (skipn i q) m)) (seq 1 (length q - 1)).

(** [m] can stand in a text without taking part in any occurrence of [q]. *)
Definition apart (q m : text) : bool :=
  match m with [] => false | _ :: _ => starts_clear m q && entry_clear q m end.

(** The four patterns of the script. *)
Definition patterns : list text := map fst rules.

(** None of the patterns occurs in [s]. *)
Definition pattern_free (s : text) : bool :=
  forallb (fun p => negb (contains s p)) patterns.

(** The script's own [replace], folded over a rule list. *)
Definition rewrite_with (rs : list (text * text)) (s : text) : text :=
  fold_left (fun acc r => replace acc (fst r) (snd r)) rs s.

(** Every replacement of [rs] stays apart from every pattern of [qs], and
    all the patterns involved are nonempty. *)
Definition rules_apart (rs : list (text * text)) (qs : list text) : bool :=
  forallb (fun r => negb (text_eqb (fst r) [])
                    && forallb (fun q => apart q (snd r)) qs) rs
  && forallb (fun q => negb (text_eqb q [])) qs.

(** Every pattern of [rs] stays apart from the literal [m]. *)
Definition literal_apart (rs : list (text * text)) (m : text) : bool :=
  forallb (fun r => negb (text_eqb (fst r) []) && apart (fst r) m) rs.

(** ** Well-formed decoded text *)

(** A Unicode scalar value: what a strict decoder can produce. *)
Definition is_scalar (c : Z) : bool :=
  (0 <=? c) && (c <? 0x110000) && negb (is_surrogate c).

(** What text-mode reading can produce: scalar values, no carriage
    return. *)
Definition read_char (c : Z) : bool := is_scalar c && negb (c =? 13).

(** ** The effect of the loop on the directory alone *)

(** The file part of one turn of the loop (read, replace, compare, write),
    as a function of the directory. *)
Definition patch (t : target) (filename : text) : outcome unit * target :=
  match load t filename with
  | Raise e => (Raise e, t)
  | Return content =>
      if negb (text_eqb (transform content) content)
      then save t filename (transform content)
      else (Return tt, t)
  end.

(** The turn of the loop for [filename] finds a text to rewrite. *)
Definition changes (t : target) (filename : text) : bool :=
  match load t filename with
  | Return content => negb (text_eqb (transform content) content)
  | Raise _ => false
  end.

(** One whole turn of the loop, as a function of the directory: after a
    write that completes, the [Fixed:] line is printed, and the turn raises
    when that line cannot be printed. *)
Definition patch_print (t : target) (filename : text)
  : outcome unit * target :=
  match patch t filename with
  | (Return _, t') =>
      if changes t filename && negb (printable (fixed_line filename))
      then (Raise UnicodeEncodeError, t')
      else (Return tt, t')
  | (Raise e, t') => (Raise e, t')
  end.

Fixpoint patch_all (t : target) (l : list text) : outcome unit * target :=
  match l with
  | [] => (Return tt, t)
  | f :: l' =>
      match patch_print t f with
      | (Return _, t') => patch_all t' l'
      | (Raise e, t') => (Raise e, t')
      end
  end.

(** The names for which a [Fixed:] line is printed, in order: the files
    rewritten by the turns of the loop that complete. *)
Fixpoint reported (t : target) (l : list text) : list text :=
  match l with
  | [] => []
  | f :: l' =>
      match patch_print t f with
      | (Return _, t') => (if changes t f then [f] else []) ++ reported t' l'
      | (Raise _, _) => []
      end
  end.

(** The file operations the loop attempts, in order. *)
Fixpoint attempted (t : target) (l : list text) : list op :=
  match l with
  | [] => []
  | f :: l' =>
      OpRead f :: (if changes t f then [OpWrite f] else [])
      ++ match patch_print t f with
         | (Return _, t') => attempted t' l'
         | (Raise _, _) => []
         end
  end.

(** Reading [filename] gives a text that the transform leaves as it is. *)
Definition settled (t : target) (filename : text) : Prop :=
  exists content, load t filename = Return content
                  /\ transform content = content.

(** One turn of the loop on the directory: the ways it can go. *)
Inductive turn (t : target) (f : text) : outcome unit * target -> Prop :=
  | turn_raise e :
      load t f = Raise e -> turn t f (Raise e, t)
  | turn_keep c :
      load t f = Return c -> transform c = c -> turn t f (Return tt, t)
  | turn_denied c :
      load t f = Return c -> transform c <> c ->
      save t f (transform c) = (Raise PermissionError, t) ->
      turn t f (Raise PermissionError, t)
  | turn_write c l es data bs :
      load t f = Return c -> transform c <> c ->
      t = Dir l es -> lookup es f = Some (File data true true) ->
      utf8_encode (transform c) = Some bs ->
      turn t f (Return tt, Dir l (store es f (File bs true true))).

(** ** Sample inputs *)

(** [col.HasColumnType("datetime").HasDefaultValueSql("GETUTCDATE()")] *)
Definition sample_A : text :=
  str "col." ++ HasColumnType "datetime" ++ str ".HasDefaultValueSql("
  ++ [dq] ++ GETUTCDATE ++ [dq] ++ str ")".

(** [col.HasColumnType("timestamp with time zone").HasDefaultValueSql("NOW()")] *)
Definition sample_A_fixed : text :=
  str "col." ++ HasColumnType "timestamp with time zone"
  ++ str ".HasDefaultValueSql(" ++ [dq] ++ NOW ++ [dq] ++ str ")".

(** [col.HasColumnType("int")] *)
Definition sample_B : text := str "col." ++ HasColumnType "int".

(** A directory with [A.cs] and [B.cs], both ASCII, whose bytes are their
    code points. *)
Definition sample_dir : target :=
  Dir true [ (str "A.cs", File sample_A true true);
             (str "B.cs", File sample_B true true) ].

Definition sample_world : world := World sample_dir [] [].

(** [A.cs] can be patched; [B.cs] is not UTF-8. *)
Definition broken_world : world :=
  World (Dir true [ (str "A.cs", File GETUTCDATE true true);
                    (str "B.cs", File [0xFF] true true) ]) [] [].

(** A directory whose only entries are a text file and a subdirectory that
    is called [sub.cs] and holds a file [inner.cs]. *)
Definition nested_world : world :=
  World (Dir true [ (str "notes.txt", File (str "GETUTCDATE()") true true);
                    (str "sub.cs",
                     Subdir [(str "inner.cs", File GETUTCDATE true true)]) ])
        [] [].

(** A directory with the subdirectory [sub.cs] and, after it in the
    listing, the file [z.cs]. *)
Definition subdir_world : world :=
  World (Dir true [ (str "sub.cs", Subdir []);
                    (str "z.cs", File GETUTCDATE true true) ]) [] [].

(** The name [os.listdir] gives for a file whose name is the bytes
    [FF 2E 63 73]: the byte that is not UTF-8 comes as the surrogate
    U+DCFF. *)
Definition odd_name : text := [0xDCFF] ++ str ".cs".

Definition odd_world : world :=
  World (Dir true [(odd_name, File GETUTCDATE true true)]) [] [].

(** ** Rules that can be exchanged *)

(** The two rules do not interfere: no occurrence of one pattern begins
    inside the other, and each replacement stays apart from the other
    pattern. *)
Definition commuting (r1 r2 : text * text) : bool :=
  negb (text_eqb (fst r1) []) && negb (text_eqb (fst r2) [])
  && starts_clear (fst r1) (fst r2) && starts_clear (fst r2) (fst r1)
  && apart (fst r2) (snd r1) && apart (fst r1) (snd r2).

Definition rule_eqb (r1 r2 : text * text) : bool :=
  text_eqb (fst r1) (fst r2) && text_eqb (snd r1) (snd r2).

Definition pairwise_commuting (rs : list (text * text)) : bool :=
  forallb (fun r1 => forallb (fun r2 => rule_eqb r1 r2 || commuting r1 r2) rs)
          rs.

(** ** Observing the directory *)

(** The entry called [name] in the target directory, if any. *)
Definition entry (t : target) (name : text) : option node :=
  match t with
  | Dir _ es => lookup es name
  | _ => None
  end.

(** The names of the target directory, in listing order. *)
Definition names (t : target) : list text :=
  match t with
  | Dir _ es => map fst es
  | _ => []
  end.

(** Text that is its own UTF-8 encoding and that reading leaves alone:
    ASCII without carriage return. *)
Definition plain (p : text) : bool :=
  forallb (fun c => (0 <=? c) && (c <? 0x80) && negb (c =? 13)) p.

(** * Properties *)

Example transform_scenario_A :
  transform (str "col." ++ HasColumnType "datetime" ++
             str ".HasDefaultValueSql(" ++ [dq] ++ GETUTCDATE ++ [dq] ++ str ")")
  = str "col." ++ HasColumnType "timestamp with time zone" ++
    str ".HasDefaultValueSql(" ++ [dq] ++ NOW ++ [dq] ++ str ")".
Proof. reflexivity. Qed.

(** The example of the specification: [A.cs] is rewritten and reported,
    [B.cs] is read and left alone. *)
Example run_sample :
  run sample_world
  = (Return tt,
     World (Dir true [ (str "A.cs", File sample_A_fixed true true);
                       (str "B.cs", File sample_B true true) ])
           [fixed_line (str "A.cs"); done_message]
           [OpListdir; OpRead (str "A.cs"); OpWrite (str "A.cs");
            OpRead (str "B.cs")]).
Proof. vm_compute. reflexivity. Qed.

Example universal_newlines_crlf :
  universal_newlines (str "a" ++ [13; 10] ++ str "b" ++ [13] ++ str "c")
  = str "a" ++ [10] ++ str "b" ++ [10] ++ str "c".
Proof. reflexivity. Qed.

Example utf8_decode_two_bytes : utf8_decode [0xD8; 0xA7] = Some [0x627].
Proof. reflexivity. Qed.

Example utf8_decode_overlong : utf8_decode [0xC0; 0x80] = None.
Proof. reflexivity. Qed.

Example replace_empty_pattern :
  replace (str "abc") [] (str "-") = str "-a-b-c-".
Proof. reflexivity. Qed.

Example replace_overlap :
  replace (str "aaaa") (str "aa") (str "b") = str "bb".
Proof. reflexivity. Qed.

(** ** Prefixes, equality and occurrences *)

Lemma text_eqb_eq (a b : text) : text_eqb a b = true <-> a = b.
Proof.
  revert b; induction a as [|x a IH]; intros [|y b]; simpl;
    try (split; congruence).
  rewrite andb_true_iff, Z.eqb_eq, IH. split.
  - intros [-> ->]; reflexivity.
  - intros H; injection H; auto.
Qed.

Lemma text_eqb_refl (a : text) : text_eqb a a = true.
Proof. apply text_eqb_eq; reflexivity. Qed.

Lemma text_eqb_neq (a b : text) : text_eqb a b = false <-> a <> b.
Proof.
  rewrite <- text_eqb_eq. destruct (text_eqb a b); split; congruence.
Qed.

Lemma startswith_app (p r : text) : startswith (p ++ r) p = true.
Proof.
  induction p as [|a p IH]; simpl; [reflexivity|].
  rewrite Z.eqb_refl; exact IH.
Qed.

Lemma startswith_split (s p : text) :
  startswith s p = true -> s = p ++ skipn (length p) s.
Proof.
  revert s; induction p as [|a p IH]; intros [|b s]; simpl; try congruence.
  rewrite andb_true_iff, Z.eqb_eq. intros [-> H].
  f_equal; apply IH; exact H.
Qed.

Lemma startswith_spec (s p : text) :
  startswith s p = true <-> exists r, s = p ++ r.
Proof.
  split.
  - intros H; eexists; apply startswith_split; exact H.
  - intros [r ->]; apply startswith_app.
Qed.

Lemma startswith_nil_l (p : text) : p <> [] -> startswith [] p = false.
Proof. destruct p; simpl; congruence. Qed.

(** A prefix of [x ++ y] either is a prefix of [x] or runs through all of
    [x] and on into [y]. *)
Lemma startswith_app_inv (x y q : text) :
  startswith (x ++ y) q = true ->
  startswith x q = true \/
  (length x < length q)%nat /\ startswith q x = true
  /\ startswith y (skipn (length x) q) = true.
Proof.
  revert q; induction x as [|a x IH]; intros [|b q]; simpl; auto.
  - intros H; right; repeat split; auto; lia.
  - rewrite andb_true_iff. intros [E H].
    destruct (IH _ H) as [H1 | (H1 & H2 & H3)].
    + left; rewrite E, H1; reflexivity.
    + right; repeat split; [lia | | exact H3].
      rewrite Z.eqb_sym, E; exact H2.
Qed.

Lemma startswith_weaken (x y q : text) :
  startswith x q = true -> startswith (x ++ y) q = true.
Proof.
  rewrite !startswith_spec. intros [r ->]. exists (r ++ y).
  rewrite app_assoc; reflexivity.
Qed.

Lemma startswith_length (s p : text) :
  startswith s p = true -> (length p <= length s)%nat.
Proof.
  intros H; apply startswith_split in H.
  rewrite H, length_app; lia.
Qed.

Lemma endswith_spec (s p : text) :
  endswith s p = true <-> exists a, s = a ++ p.
Proof.
  unfold endswith. rewrite andb_true_iff, Nat.leb_le. split.
  - intros [Hl H]. exists (firstn (length s - length p) s).
    apply startswith_split in H.
    rewrite (skipn_all2 (n := length p)) in H by (rewrite length_skipn; lia).
    rewrite app_nil_r in H.
    etransitivity; [symmetry; apply (firstn_skipn (length s - length p))|].
    f_equal; exact H.
  - intros [a ->]. rewrite length_app. split; [lia|].
    replace (length a + length p - length p)%nat with (length a + 0)%nat by lia.
    rewrite skipn_app, Nat.add_0_r, skipn_all.
    replace (length a - length a)%nat with 0%nat by lia.
    simpl. rewrite <- (app_nil_r p) at 1. apply startswith_app.
Qed.

Lemma contains_cons (c : Z) (s p : text) :
  contains (c :: s) p = startswith (c :: s) p || contains s p.
Proof. reflexivity. Qed.

Lemma contains_app_r (x s p : text) :
  contains (x ++ s) p = false -> contains s p = false.
Proof.
  induction x as [|c x IH]; simpl; auto.
  rewrite orb_false_iff. intros [_ H]; auto.
Qed.

Lemma contains_app_l (x s p : text) :
  contains (x ++ s) p = false -> contains x p = false.
Proof.
  induction x as [|c x IH].
  - simpl. destruct p; [destruct s; simpl; congruence | reflexivity].
  - change ((c :: x) ++ s) with (c :: x ++ s).
    rewrite !contains_cons, !orb_false_iff. intros [H1 H2]. split; auto.
    destruct (startswith (c :: x) p) eqn:E; auto.
    apply (startswith_weaken _ s) in E. simpl in *; congruence.
Qed.

Lemma contains_spec (s p : text) :
  contains s p = true <-> exists l r, s = l ++ p ++ r.
Proof.
  induction s as [|c s IH].
  - simpl. rewrite orb_false_r, startswith_spec. split.
    + intros [r H]; exists [], r; exact H.
    + intros (l & r & H). destruct l; [exists r; exact H | discriminate].
  - rewrite contains_cons, orb_true_iff, IH, startswith_spec. split.
    + intros [[r H] | (l & r & H)].
      * exists [], r; exact H.
      * exists (c :: l), r; rewrite H; reflexivity.
    + intros (l & r & H). destruct l as [|d l].
      * left; exists r; exact H.
      * right; exists l, r; injection H; auto.
Qed.

(** ** The scan of [replace] *)

Lemma replace_scan_skip (old new x s : text) :
  replace_scan old new (length x) (x ++ s) = replace_scan old new 0 s.
Proof.
  induction x as [|c x IH]; simpl; [destruct s|]; auto.
Qed.

Lemma replace_nil (old new : text) : old <> [] -> replace [] old new = [].
Proof. destruct old; [congruence | reflexivity]. Qed.

Lemma replace_match (old new r : text) :
  old <> [] -> replace (old ++ r) old new = new ++ replace r old new.
Proof.
  destruct old as [|a o]; [congruence | intros _].
  unfold replace. change ((a :: o) ++ r) with (a :: o ++ r).
  cbn [replace_scan].
  change (a :: o ++ r) with ((a :: o) ++ r). rewrite startswith_app.
  cbn [length]. replace (S (length o) - 1)%nat with (length o) by lia.
  rewrite replace_scan_skip; reflexivity.
Qed.

Lemma replace_copy (old new : text) (c : Z) (s : text) :
  old <> [] -> startswith (c :: s) old = false ->
  replace (c :: s) old new = c :: replace s old new.
Proof.
  destruct old as [|a o]; [congruence | intros _ H].
  unfold replace; cbn [replace_scan]. rewrite H; reflexivity.
Qed.

Section Replace.
Variables old new : text.
Hypothesis old_nonempty : old <> [].

(** Induction along the scan: the empty text, a text that begins with an
    occurrence, and a text that does not. *)
Lemma scan_ind (P : text -> Prop) :
  P [] ->
  (forall r, P r -> P (old ++ r)) ->
  (forall c s, startswith (c :: s) old = false -> P s -> P (c :: s)) ->
  forall s, P s.
Proof using old_nonempty.
  intros H0 Hm Hc s.
  remember (length s) as n eqn:En.
  revert s En; induction n as [n IH] using lt_wf_ind; intros s En.
  destruct s as [|c s]; [exact H0|].
  destruct (startswith (c :: s) old) eqn:E.
  - apply startswith_split in E. rewrite E. apply Hm.
    apply (IH (length (skipn (length old) (c :: s)))); [|reflexivity].
    rewrite length_skipn. subst n. cbn [length].
    assert (length old <> 0)%nat by (rewrite length_zero_iff_nil; auto).
    lia.
  - apply Hc; [exact E|]. apply (IH (length s)); [|reflexivity].
    subst n; cbn [length]; lia.
Qed.

(** Where nothing matches, nothing changes. *)
Lemma replace_absent (s : text) :
  contains s old = false -> replace s old new = s.
Proof using old_nonempty.
  induction s as [|c s IH].
  - intros _; apply replace_nil; auto.
  - rewrite contains_cons, orb_false_iff. intros [H1 H2].
    rewrite replace_copy, IH; auto.
Qed.

End Replace.

(** ** Literals that stay apart *)

Lemma comparable_of_prefix (x y q : text) :
  startswith (x ++ y) q = true -> comparable x q = true.
Proof.
  intros H. unfold comparable.
  destruct (startswith_app_inv _ _ _ H) as [-> | (_ & -> & _)];
    auto using orb_true_r.
Qed.

Lemma starts_clear_at (m q : text) (j : nat) :
  starts_clear m q = true -> (j < length m)%nat ->
  comparable (skipn j m) q = false.
Proof.
  unfold starts_clear. rewrite forallb_forall. intros H Hj.
  apply negb_true_iff, H, in_seq; lia.
Qed.

Lemma entry_clear_at (q m : text) (i : nat) :
  entry_clear q m = true -> (0 < i < length q)%nat ->
  comparable (skipn i q) m = false.
Proof.
  unfold entry_clear. rewrite forallb_forall. intros H Hi.
  apply negb_true_iff, H, in_seq; lia.
Qed.

Lemma comparable_sym (a b : text) : comparable a b = comparable b a.
Proof. apply orb_comm. Qed.

(** No occurrence of [q] begins inside a text cleared for it. *)
Lemma starts_clear_skip (q x t : text) :
  (forall j, (j < length x)%nat -> comparable (skipn j x) q = false) ->
  contains (x ++ t) q = contains t q.
Proof.
  induction x as [|c x IH]; intros H; [reflexivity|].
  change ((c :: x) ++ t) with (c :: x ++ t).
  rewrite contains_cons, IH.
  - destruct (startswith (c :: x ++ t) q) eqn:E; [|reflexivity].
    apply (comparable_of_prefix (c :: x)) in E.
    assert (E0 := H 0%nat ltac:(simpl; lia)).
    change (skipn 0 (c :: x)) with (c :: x) in E0. congruence.
  - intros j Hj. apply (H (S j)); simpl; lia.
Qed.

Lemma apart_inv (q m : text) :
  apart q m = true ->
  (0 < length m)%nat /\ starts_clear m q = true /\ entry_clear q m = true.
Proof.
  unfold apart. destruct m; [discriminate|].
  rewrite andb_true_iff. simpl; intuition lia.
Qed.

Section Apart.
Variables old new : text.
Hypothesis old_nonempty : old <> [].

(** A prefix of the output that is a suffix of [q] was already a prefix
    of the input, when [new] stays apart from [q]. *)
Lemma replace_prefix_origin (q : text) :
  apart q new = true ->
  forall s i, (i < length q)%nat ->
    startswith (replace s old new) (skipn i q) = true ->
    startswith s (skipn i q) = true.
Proof using old_nonempty.
  intros Ha. destruct (apart_inv _ _ Ha) as (Hn & Hs & He).
  intros s; induction s as [|r IH|c s Hc IH] using (scan_ind old old_nonempty);
    intros i Hi.
  - rewrite replace_nil by assumption. auto.
  - rewrite replace_match by assumption. intros H.
    apply comparable_of_prefix in H. exfalso.
    destruct i as [|i].
    + assert (E0 := starts_clear_at new q 0 Hs Hn).
      change (skipn 0 new) with new in E0.
      change (skipn 0 q) with q in H. congruence.
    + rewrite comparable_sym, (entry_clear_at q new (S i)) in H;
        [discriminate | exact He | lia].
  - rewrite replace_copy by assumption.
    destruct (skipn i q) as [|d v] eqn:Ev; [reflexivity|].
    assert (Hv : v = skipn (S i) q).
    { change (S i) with (1 + i)%nat. rewrite <- skipn_skipn, Ev. reflexivity. }
    cbn [startswith]. rewrite !andb_true_iff. intros [E H]. split; [exact E|].
    destruct (Nat.eq_dec (S i) (length q)) as [El | Nl].
    + rewrite Hv, El, skipn_all. reflexivity.
    + rewrite Hv in *. apply IH; [lia | exact H].
Qed.

(** Replacing [old] by [new] brings no occurrence of [q] into a text, when
    [new] stays apart from [q]: the output has no [q] if the input had
    none, and no [old] at all. *)
Lemma replace_no_new (q : text) :
  q <> [] -> apart q new = true ->
  forall s, q = old \/ contains s q = false ->
    contains (replace s old new) q = false.
Proof using old_nonempty.
  intros Hq Ha.
  intros s; induction s as [|r IH|c s Hc IH] using (scan_ind old old_nonempty);
    intros H.
  - rewrite replace_nil by assumption. simpl.
    rewrite startswith_nil_l by assumption. reflexivity.
  - rewrite replace_match by assumption.
    rewrite starts_clear_skip.
    + apply IH. destruct H as [H | H]; [left; exact H | right].
      eapply contains_app_r; exact H.
    + intros j Hj. apply starts_clear_at; [|exact Hj].
      apply (apart_inv _ _ Ha).
  - rewrite replace_copy by assumption.
    rewrite contains_cons, orb_false_iff.
    assert (Hh : startswith (c :: s) q = false /\
                 (q = old \/ contains s q = false)).
    { destruct H as [-> | H]; [auto|].
      rewrite contains_cons, orb_false_iff in H. tauto. }
    destruct Hh as [Hh Ht]. split; [|apply IH; exact Ht].
    destruct (startswith (c :: replace s old new) q) eqn:E; [|reflexivity].
    rewrite <- Hh. symmetry.
    rewrite <- (replace_copy old new) in E by assumption.
    apply (replace_prefix_origin q Ha (c :: s) 0%nat).
    + destruct q; [congruence | simpl; lia].
    + exact E.
Qed.

(** The scan passes a literal [m] that no occurrence of [old] can run
    into: what precedes [m] is rewritten on its own. *)
Lemma replace_app_entry (m a b : text) :
  entry_clear old m = true ->
  replace (a ++ m ++ b) old new
  = replace a old new ++ replace (m ++ b) old new.
Proof using old_nonempty.
  intros He.
  induction a as [|r IH|c s Hc IH] using (scan_ind old old_nonempty).
  - rewrite replace_nil by assumption. reflexivity.
  - rewrite <- app_assoc, !replace_match, IH, app_assoc by assumption.
    reflexivity.
  - assert (E : startswith ((c :: s) ++ m ++ b) old = false).
    { destruct (startswith ((c :: s) ++ m ++ b) old) eqn:E; [|reflexivity].
      apply startswith_app_inv in E.
      destruct E as [E | (E1 & E2 & E3)]; [congruence|].
      apply comparable_of_prefix in E3.
      rewrite comparable_sym, entry_clear_at in E3;
        [discriminate | exact He | simpl in *; lia]. }
    change ((c :: s) ++ m ++ b) with (c :: s ++ m ++ b) in *.
    rewrite !replace_copy, IH by assumption. reflexivity.
Qed.

(** The scan copies a literal [m] inside which no occurrence of [old] can
    begin. *)
Lemma replace_app_clear (m b : text) :
  starts_clear m old = true ->
  replace (m ++ b) old new = m ++ replace b old new.
Proof using old_nonempty.
  intros Hs.
  assert (H : forall j, (j < length m)%nat ->
                        comparable (skipn j m) old = false)
    by (intros; apply starts_clear_at; assumption).
  clear Hs. induction m as [|c x IH]; [reflexivity|].
  change ((c :: x) ++ b) with (c :: x ++ b).
  rewrite replace_copy, IH; auto.
  - intros j Hj. apply (H (S j)); simpl; lia.
  - destruct (startswith (c :: x ++ b) old) eqn:E; [|reflexivity].
    apply (comparable_of_prefix (c :: x)) in E.
    assert (E0 := H 0%nat ltac:(simpl; lia)).
    change (skipn 0 (c :: x)) with (c :: x) in E0. congruence.
Qed.

(** A literal that stays apart from [old] is left in place, and the texts
    on its two sides are rewritten independently. *)
Lemma replace_around (m a b : text) :
  apart old m = true ->
  replace (a ++ m ++ b) old new
  = replace a old new ++ m ++ replace b old new.
Proof using old_nonempty.
  intros Ha. destruct (apart_inv _ _ Ha) as (_ & Hs & He).
  rewrite replace_app_entry, replace_app_clear; auto.
Qed.

(** An occurrence of [old] that no other occurrence can overlap is
    replaced where it stands. *)
Lemma replace_at (a b : text) :
  entry_clear old old = true ->
  replace (a ++ old ++ b) old new
  = replace a old new ++ new ++ replace b old new.
Proof using old_nonempty.
  intros He. rewrite replace_app_entry, replace_match; auto.
Qed.
End Apart.

(** ** The specification's replace-all is the script's [replace] *)

Lemma find_none (s p : text) : find s p = None -> contains s p = false.
Proof.
  induction s as [|c s IH]; simpl.
  - destruct (startswith [] p); [discriminate | reflexivity].
  - destruct (startswith (c :: s) p); [discriminate|].
    destruct (find s p); [discriminate | auto].
Qed.

Lemma replace_find (old new s : text) (i : nat) :
  old <> [] -> find s old = Some i ->
  replace s old new
  = firstn i s ++ new ++ replace (skipn (i + length old) s) old new.
Proof.
  intros Ho. revert i; induction s as [|c s IH]; intros i; simpl find.
  - rewrite startswith_nil_l by assumption. discriminate.
  - destruct (startswith (c :: s) old) eqn:E.
    + intros [= <-]. cbn [firstn app Nat.add].
      rewrite (startswith_split _ _ E) at 1.
      apply replace_match; assumption.
    + destruct (find s old) as [j|]; [|discriminate].
      intros [= <-]. rewrite replace_copy, (IH j) by auto. reflexivity.
Qed.

Lemma replace_all_upto_correct (old new : text) (fuel : nat) (s : text) :
  old <> [] -> (length s <= fuel)%nat ->
  replace_all_upto fuel s old new = replace s old new.
Proof.
  intros Ho. revert s; induction fuel as [|fuel IH]; intros s Hs.
  - destruct s; [|simpl in Hs; lia].
    rewrite replace_nil by assumption. reflexivity.
  - cbn [replace_all_upto]. destruct (find s old) as [i|] eqn:E.
    + rewrite (replace_find old new s i) by assumption.
      rewrite IH; [reflexivity|].
      rewrite length_skipn.
      assert (length old <> 0)%nat by (rewrite length_zero_iff_nil; auto).
      lia.
    + symmetry; apply replace_absent; [assumption|].
      apply find_none; assumption.
Qed.

Lemma replace_all_correct (s old new : text) :
  old <> [] -> replace_all s old new = replace s old new.
Proof. intros; apply replace_all_upto_correct; auto. Qed.

(** ** Folding over rule lists *)

Lemma text_nonempty (q : text) : negb (text_eqb q []) = true <-> q <> [].
Proof. rewrite negb_true_iff. apply text_eqb_neq. Qed.

Lemma rules_apart_inv (rs : list (text * text)) (qs : list text) :
  rules_apart rs qs = true ->
  (forall r, In r rs -> fst r <> [] /\
     forall q, In q qs -> apart q (snd r) = true)
  /\ (forall q, In q qs -> q <> []).
Proof.
  unfold rules_apart. rewrite andb_true_iff, !forallb_forall.
  intros [H1 H2]. split.
  - intros r Hr. specialize (H1 r Hr).
    rewrite andb_true_iff, forallb_forall, text_nonempty in H1. exact H1.
  - intros q Hq. apply text_nonempty, H2, Hq.
Qed.

Lemma rules_apart_tail r rs qs :
  rules_apart (r :: rs) qs = true -> rules_apart rs qs = true.
Proof.
  unfold rules_apart. simpl. rewrite !andb_true_iff. tauto.
Qed.

Lemma rewrite_with_app (rs1 rs2 : list (text * text)) (s : text) :
  rewrite_with (rs1 ++ rs2) s = rewrite_with rs2 (rewrite_with rs1 s).
Proof. apply fold_left_app. Qed.

(** After the rules have run, none of their patterns is left, and no other
    pattern the replacements stay apart from has come in. *)
Lemma rewrite_with_clean (qs : list text) (rs : list (text * text)) :
  rules_apart rs qs = true ->
  forall s q, In q qs ->
    contains s q = false \/ In q (map fst rs) ->
    contains (rewrite_with rs s) q = false.
Proof.
  induction rs as [|r rs IH]; intros Ha s q Hq H.
  - destruct H as [H | []]. exact H.
  - pose proof (rules_apart_inv _ _ Ha) as [H1 H2].
    destruct (H1 r (or_introl eq_refl)) as [Hr Hr'].
    cbn [rewrite_with fold_left]. fold (rewrite_with rs).
    apply (IH (rules_apart_tail _ _ _ Ha)); [exact Hq|].
    destruct H as [H | [H | H]].
    + left. apply replace_no_new; auto.
    + left. apply replace_no_new; auto.
    + right; exact H.
Qed.

(** Rules whose patterns do not occur change nothing. *)
Lemma rewrite_with_absent (rs : list (text * text)) (s : text) :
  (forall r, In r rs -> fst r <> [] /\ contains s (fst r) = false) ->
  rewrite_with rs s = s.
Proof.
  induction rs as [|r rs IH]; intros H; [reflexivity|].
  cbn [rewrite_with fold_left]. fold (rewrite_with rs).
  destruct (H r (or_introl eq_refl)) as [H1 H2].
  rewrite replace_absent by assumption.
  apply IH. intros r' Hr'. apply H; right; exact Hr'.
Qed.

(** A literal that stays apart from every pattern splits the work. *)
Lemma rewrite_with_around (rs : list (text * text)) (m : text) :
  literal_apart rs m = true ->
  forall a b,
    rewrite_with rs (a ++ m ++ b) = rewrite_with rs a ++ m ++ rewrite_with rs b.
Proof.
  unfold literal_apart.
  induction rs as [|r rs IH]; intros H a b; [reflexivity|].
  cbn [forallb] in H. rewrite !andb_true_iff, text_nonempty in H.
  destruct H as [[H1 H2] H3].
  cbn [rewrite_with fold_left]. fold (rewrite_with rs).
  rewrite replace_around by assumption. apply IH; exact H3.
Qed.

(** ** The transform *)

Lemma transform_rewrite (s : text) : transform s = rewrite_with rules s.
Proof. reflexivity. Qed.

Lemma rules_stay_apart : rules_apart rules patterns = true.
Proof. vm_compute. reflexivity. Qed.

Lemma patterns_nonempty (q : text) : In q patterns -> q <> [].
Proof. apply (rules_apart_inv _ _ rules_stay_apart). Qed.

Lemma pattern_free_inv (s : text) :
  pattern_free s = true <-> forall q, In q patterns -> contains s q = false.
Proof.
  unfold pattern_free. rewrite forallb_forall. split; intros H q Hq.
  - apply negb_true_iff, H, Hq.
  - apply negb_true_iff, H, Hq.
Qed.

Lemma transform_clean (s : text) : pattern_free (transform s) = true.
Proof.
  apply pattern_free_inv. intros q Hq. rewrite transform_rewrite.
  apply (rewrite_with_clean patterns); auto using rules_stay_apart.
Qed.

Lemma transform_absent (s : text) : pattern_free s = true -> transform s = s.
Proof.
  rewrite pattern_free_inv. intros H. rewrite transform_rewrite.
  apply rewrite_with_absent. intros r Hr.
  assert (In (fst r) patterns) by (apply in_map; exact Hr).
  auto using patterns_nonempty.
Qed.

Lemma transform_idempotent (s : text) : transform (transform s) = transform s.
Proof. apply transform_absent, transform_clean. Qed.

Lemma transform_around (m a b : text) :
  literal_apart rules m = true ->
  transform (a ++ m ++ b) = transform a ++ m ++ transform b.
Proof. intros H. rewrite !transform_rewrite. apply rewrite_with_around, H. Qed.

(** A pattern that no other occurrence of itself can overlap, met where the
    earlier patterns stay apart from it and the later ones from its
    replacement, is rewritten where it stands. *)
Lemma rewrite_with_at (pre post : list (text * text)) (old new a b : text) :
  literal_apart pre old = true ->
  old <> [] -> entry_clear old old = true ->
  literal_apart post new = true ->
  rewrite_with (pre ++ (old, new) :: post) (a ++ old ++ b)
  = rewrite_with (pre ++ (old, new) :: post) a ++ new
    ++ rewrite_with (pre ++ (old, new) :: post) b.
Proof.
  intros Hpre Ho He Hpost.
  rewrite !rewrite_with_app, (rewrite_with_around pre old Hpre).
  cbn [rewrite_with fold_left]. fold (rewrite_with post).
  cbn [fst snd]. rewrite replace_at by assumption.
  apply rewrite_with_around, Hpost.
Qed.

Lemma transform_GETUTCDATE (a b : text) :
  transform (a ++ GETUTCDATE ++ b) = transform a ++ NOW ++ transform b.
Proof.
  rewrite !transform_rewrite.
  apply (rewrite_with_at [] (tl rules)); try (vm_compute; reflexivity).
  vm_compute; discriminate.
Qed.

Lemma transform_datetime (a b : text) :
  transform (a ++ HasColumnType "datetime" ++ b)
  = transform a ++ HasColumnType "timestamp with time zone" ++ transform b.
Proof.
  rewrite !transform_rewrite.
  apply (rewrite_with_at (firstn 1 rules) (skipn 2 rules));
    try (vm_compute; reflexivity).
  vm_compute; discriminate.
Qed.

Lemma transform_NVARCHAR (a b : text) :
  transform (a ++ HasColumnType "NVARCHAR(MAX)" ++ b)
  = transform a ++ HasColumnType "text" ++ transform b.
Proof.
  rewrite !transform_rewrite.
  apply (rewrite_with_at (firstn 2 rules) (skipn 3 rules));
    try (vm_compute; reflexivity).
  vm_compute; discriminate.
Qed.

Lemma transform_nvarchar (a b : text) :
  transform (a ++ HasColumnType "nvarchar(max)" ++ b)
  = transform a ++ HasColumnType "text" ++ transform b.
Proof.
  rewrite !transform_rewrite.
  apply (rewrite_with_at (firstn 3 rules) []); try (vm_compute; reflexivity).
  vm_compute; discriminate.
Qed.

(** ** Counting occurrences *)

Lemma occurrences_zero (s p : text) :
  occurrences s p = 0%nat <-> contains s p = false.
Proof.
  induction s as [|c s IH]; cbn [occurrences contains].
  - destruct (startswith [] p); simpl; split; (discriminate || reflexivity).
  - destruct (startswith (c :: s) p); simpl.
    + split; discriminate.
    + exact IH.
Qed.

Lemma occurrences_app_r (x y p : text) :
  (occurrences y p <= occurrences (x ++ y) p)%nat.
Proof.
  induction x as [|c x IH]; [simpl; lia|].
  change ((c :: x) ++ y) with (c :: x ++ y). cbn [occurrences]. lia.
Qed.

Lemma occurrences_app (x y p : text) :
  (occurrences x p + occurrences y p <= occurrences (x ++ y) p
   + (if startswith [] p then 1 else 0))%nat.
Proof.
  induction x as [|c x IH].
  - cbn [occurrences app]. lia.
  - change ((c :: x) ++ y) with (c :: x ++ y). cbn [occurrences].
    destruct (startswith (c :: x) p) eqn:E.
    + apply (startswith_weaken _ y) in E.
      change ((c :: x) ++ y) with (c :: x ++ y) in E. rewrite E. lia.
    + destruct (startswith (c :: x ++ y) p); lia.
Qed.

(** A text with a single occurrence of [p] has none on either side of it. *)
Lemma single_occurrence (l r p : text) :
  p <> [] -> occurrences (l ++ p ++ r) p = 1%nat ->
  contains l p = false /\ contains r p = false.
Proof.
  intros Hp H.
  pose proof (occurrences_app l (p ++ r) p) as H1.
  rewrite startswith_nil_l in H1 by assumption.
  assert (H2 : (1 + occurrences r p <= occurrences (p ++ r) p)%nat).
  { destruct p as [|c p]; [congruence|].
    change ((c :: p) ++ r) with (c :: p ++ r). cbn [occurrences].
    change (c :: p ++ r) with ((c :: p) ++ r). rewrite startswith_app.
    pose proof (occurrences_app_r p r (c :: p)). lia. }
  rewrite <- !occurrences_zero. lia.
Qed.

(** ** The codec *)

(** Settle the comparisons of the goal one at a time, each by arithmetic on
    the hypotheses. *)
Ltac settle_tests :=
  repeat match goal with
    | |- context [?a <=? ?b] =>
        first [ replace (a <=? b) with true by (symmetry; apply Z.leb_le; lia)
              | replace (a <=? b) with false by (symmetry; apply Z.leb_gt; lia) ]
    | |- context [?a <? ?b] =>
        first [ replace (a <? b) with true by (symmetry; apply Z.ltb_lt; lia)
              | replace (a <? b) with false by (symmetry; apply Z.ltb_ge; lia) ]
    end;
  cbn [andb negb orb].

Lemma is_scalar_spec (c : Z) :
  is_scalar c = true <->
  0 <= c < 0x110000 /\ ~ (0xD800 <= c < 0xE000).
Proof.
  unfold is_scalar, is_surrogate.
  rewrite !andb_true_iff, negb_true_iff, andb_false_iff.
  rewrite Z.leb_le, !Z.ltb_lt, Z.leb_gt, Z.ltb_ge. lia.
Qed.

Lemma decode_1 (b0 : Z) (r : bytes) :
  0 <= b0 < 0x80 ->
  utf8_decode (b0 :: r) = option_map (cons b0) (utf8_decode r).
Proof. intros H. cbn [utf8_decode]. settle_tests. reflexivity. Qed.

Lemma decode_2 (b0 b1 : Z) (r : bytes) :
  0xC2 <= b0 < 0xE0 -> 0x80 <= b1 < 0xC0 ->
  utf8_decode (b0 :: b1 :: r)
  = option_map (cons ((b0 - 0xC0) * 64 + (b1 - 0x80))) (utf8_decode r).
Proof.
  intros H0 H1. cbn [utf8_decode]. unfold is_cont.
  settle_tests. reflexivity.
Qed.

Lemma decode_3 (b0 b1 b2 : Z) (r : bytes) :
  0xE0 <= b0 < 0xF0 -> 0x80 <= b1 < 0xC0 -> 0x80 <= b2 < 0xC0 ->
  let c := (b0 - 0xE0) * 4096 + (b1 - 0x80) * 64 + (b2 - 0x80) in
  0x800 <= c -> ~ (0xD800 <= c < 0xE000) ->
  utf8_decode (b0 :: b1 :: b2 :: r) = option_map (cons c) (utf8_decode r).
Proof.
  intros H0 H1 H2 c Hc Hs. cbn [utf8_decode]. unfold is_cont. fold c.
  assert (Es : is_surrogate c = false).
  { unfold is_surrogate. rewrite andb_false_iff, Z.leb_gt, Z.ltb_ge. lia. }
  rewrite Es. clearbody c. settle_tests. reflexivity.
Qed.

Lemma decode_4 (b0 b1 b2 b3 : Z) (r : bytes) :
  0xF0 <= b0 < 0xF5 -> 0x80 <= b1 < 0xC0 -> 0x80 <= b2 < 0xC0 ->
  0x80 <= b3 < 0xC0 ->
  let c := (b0 - 0xF0) * 262144 + (b1 - 0x80) * 4096
           + (b2 - 0x80) * 64 + (b3 - 0x80) in
  0x10000 <= c < 0x110000 ->
  utf8_decode (b0 :: b1 :: b2 :: b3 :: r) = option_map (cons c) (utf8_decode r).
Proof.
  intros H0 H1 H2 H3 c Hc. cbn [utf8_decode]. unfold is_cont. fold c.
  clearbody c. settle_tests. reflexivity.
Qed.

Lemma encode_char_decode (c : Z) (rest : bytes) :
  is_scalar c = true ->
  exists bs, encode_char c = Some bs /\
    utf8_decode (bs ++ rest) = option_map (cons c) (utf8_decode rest).
Proof.
  rewrite is_scalar_spec. intros [Hr Hs].
  unfold encode_char.
  assert (Es : is_surrogate c = false).
  { unfold is_surrogate. rewrite andb_false_iff, Z.leb_gt, Z.ltb_ge. lia. }
  rewrite Es.
  pose proof (Z.div_mod c 64 ltac:(lia)) as E1.
  pose proof (Z.mod_pos_bound c 64 ltac:(lia)) as B1.
  pose proof (Z.div_mod (c / 64) 64 ltac:(lia)) as E2.
  pose proof (Z.mod_pos_bound (c / 64) 64 ltac:(lia)) as B2.
  pose proof (Z.div_mod (c / 4096) 64 ltac:(lia)) as E3.
  pose proof (Z.mod_pos_bound (c / 4096) 64 ltac:(lia)) as B3.
  assert (E4 : c / 4096 = c / 64 / 64) by (rewrite Z.div_div by lia; reflexivity).
  assert (E5 : c / 262144 = c / 4096 / 64) by (rewrite Z.div_div by lia; reflexivity).
  set (q1 := c / 64) in *. set (r1 := c mod 64) in *.
  set (q2 := q1 / 64) in *. set (r2 := q1 mod 64) in *.
  set (q3 := c / 4096) in *. set (r3 := q3 mod 64) in *.
  set (q4 := c / 262144) in *. set (q3' := q3 / 64) in *.
  clearbody q1 r1 q2 r2 q3 r3 q4 q3'.
  destruct (Z.ltb_spec c 0); [lia|].
  destruct (Z.ltb_spec c 0x80).
  { eexists; split; [reflexivity|]. apply decode_1; lia. }
  destruct (Z.ltb_spec c 0x800).
  { eexists; split; [reflexivity|]. cbn [app].
    rewrite decode_2 by lia. do 2 f_equal. lia. }
  destruct (Z.ltb_spec c 0x10000).
  { eexists; split; [reflexivity|]. cbn [app].
    rewrite decode_3 by lia. do 2 f_equal. lia. }
  destruct (Z.ltb_spec c 0x110000); [|lia].
  eexists; split; [reflexivity|]. cbn [app].
  rewrite decode_4 by lia. do 2 f_equal. lia.
Qed.

Lemma encode_decode (t : text) :
  forallb is_scalar t = true ->
  exists bs, utf8_encode t = Some bs /\ utf8_decode bs = Some t.
Proof.
  induction t as [|c t IH]; cbn [forallb utf8_encode].
  - intros _; exists []; auto.
  - rewrite andb_true_iff. intros [Hc Ht].
    destruct (IH Ht) as (bs & E1 & E2).
    destruct (encode_char_decode c bs Hc) as (cs & E3 & E4).
    exists (cs ++ bs). rewrite E3, E1, E4, E2. auto.
Qed.

(** Decoding yields scalar values only. *)
Lemma decode_scalar (bs : bytes) (t : text) :
  utf8_decode bs = Some t -> forallb is_scalar t = true.
Proof.
  remember (length bs) as n eqn:En.
  revert bs t En; induction n as [n IH] using lt_wf_ind; intros bs t En.
  assert (Hstep : forall c r, (length r < n)%nat -> is_scalar c = true ->
            option_map (cons c) (utf8_decode r) = Some t ->
            forallb is_scalar t = true).
  { intros c r Hr Hc. destruct (utf8_decode r) as [t'|] eqn:E; [|discriminate].
    intros [= <-]. cbn [forallb]. rewrite Hc. exact (IH _ Hr r t' eq_refl E). }
  destruct bs as [|b0 r1]; [intros [= <-]; reflexivity|].
  cbn [utf8_decode]. subst n. cbn [length] in Hstep.
  destruct ((0 <=? b0) && (b0 <? 0x80)) eqn:T1.
  { apply Hstep; [lia|]. apply is_scalar_spec.
    rewrite andb_true_iff, Z.leb_le, Z.ltb_lt in T1. lia. }
  destruct ((0xC2 <=? b0) && (b0 <? 0xE0)) eqn:T2.
  { destruct r1 as [|b1 r2]; [discriminate|].
    destruct (is_cont b1) eqn:C1; [|discriminate].
    apply Hstep; [cbn [length]; lia|]. apply is_scalar_spec.
    unfold is_cont in C1.
    rewrite andb_true_iff, Z.leb_le, Z.ltb_lt in T2, C1. lia. }
  destruct ((0xE0 <=? b0) && (b0 <? 0xF0)) eqn:T3.
  { destruct r1 as [|b1 [|b2 r3]]; try discriminate. cbv zeta.
    set (c := (b0 - 0xE0) * 4096 + (b1 - 0x80) * 64 + (b2 - 0x80)).
    destruct (is_cont b1 && is_cont b2 && (0x800 <=? c)
              && negb (is_surrogate c)) eqn:C; [|discriminate].
    apply Hstep; [cbn [length]; lia|]. apply is_scalar_spec.
    unfold is_cont, is_surrogate in C.
    rewrite !andb_true_iff, negb_true_iff, andb_false_iff in C.
    rewrite andb_true_iff in T3.
    rewrite !Z.leb_le, !Z.ltb_lt, ?Z.leb_gt, ?Z.ltb_ge in *.
    assert (c <= 0xFFFF) by (unfold c; lia). lia. }
  destruct ((0xF0 <=? b0) && (b0 <? 0xF5)) eqn:T4; [|discriminate].
  destruct r1 as [|b1 [|b2 [|b3 r4]]]; try discriminate. cbv zeta.
  set (c := (b0 - 0xF0) * 262144 + (b1 - 0x80) * 4096
            + (b2 - 0x80) * 64 + (b3 - 0x80)).
  destruct (is_cont b1 && is_cont b2 && is_cont b3
            && (0x10000 <=? c) && (c <? 0x110000)) eqn:C; [|discriminate].
  apply Hstep; [cbn [length]; lia|]. apply is_scalar_spec.
  rewrite !andb_true_iff in C. rewrite Z.leb_le, Z.ltb_lt in C. lia.
Qed.

(** ** Text as it is read *)

Lemma universal_newlines_read (t : text) :
  forallb is_scalar t = true ->
  forallb read_char (universal_newlines t) = true.
Proof.
  remember (length t) as n eqn:En.
  revert t En; induction n as [n IH] using lt_wf_ind; intros t En H.
  destruct t as [|c r]; [reflexivity|].
  cbn [forallb] in H. apply andb_true_iff in H. destruct H as [Hc Hr].
  subst n. cbn [universal_newlines].
  destruct (Z.eqb_spec c 13) as [-> | Nc].
  - cbn [forallb]. change (read_char 10) with true. cbn [andb].
    destruct r as [|d r']; [reflexivity|].
    destruct (d =? 10).
    + cbn [forallb] in Hr. apply andb_true_iff in Hr.
      apply (IH (length r')); [simpl; lia | reflexivity | tauto].
    + apply (IH (length (d :: r'))); [simpl; lia | reflexivity | exact Hr].
  - cbn [forallb]. apply andb_true_iff. split.
    + unfold read_char. rewrite Hc. apply Z.eqb_neq in Nc. rewrite Nc.
      reflexivity.
    + apply (IH (length r)); [simpl; lia | reflexivity | exact Hr].
Qed.

Lemma universal_newlines_id (t : text) :
  forallb read_char t = true -> universal_newlines t = t.
Proof.
  induction t as [|c r IH]; [reflexivity|].
  cbn [forallb universal_newlines]. unfold read_char at 1.
  rewrite !andb_true_iff, negb_true_iff. intros [[_ Hc] Hr].
  rewrite Hc, IH by assumption. reflexivity.
Qed.

Lemma read_char_scalar (t : text) :
  forallb read_char t = true -> forallb is_scalar t = true.
Proof.
  rewrite !forallb_forall. intros H c Hc. specialize (H c Hc).
  unfold read_char in H. apply andb_true_iff in H. tauto.
Qed.

(** What is written is read back as it was. *)
Lemma write_read (t : text) :
  forallb read_char t = true ->
  exists bs, utf8_encode t = Some bs
             /\ option_map universal_newlines (utf8_decode bs) = Some t.
Proof.
  intros H. destruct (encode_decode t (read_char_scalar t H)) as (bs & E1 & E2).
  exists bs. split; [exact E1|].
  rewrite E2. cbn [option_map]. rewrite universal_newlines_id; auto.
Qed.

(** Replacing keeps whatever holds of every character of the text and of the
    replacement. *)
Lemma replace_forallb (P : Z -> bool) (s old new : text) :
  forallb P s = true -> forallb P new = true ->
  forallb P (replace s old new) = true.
Proof.
  intros Hs Hn. destruct old as [|a o] eqn:Eo.
  - unfold replace. rewrite forallb_app, Hn. cbn [andb].
    induction s as [|c s IH]; [reflexivity|].
    cbn [forallb flat_map app] in *. apply andb_true_iff in Hs.
    rewrite forallb_app, Hn. destruct Hs as [-> Hs]. cbn [andb]. auto.
  - rewrite <- Eo. assert (Ho : old <> []) by (rewrite Eo; discriminate).
    clear Eo. revert Hs.
    induction s as [|r IH|c s Hc IH] using (scan_ind old Ho); intros Hs.
    + rewrite replace_nil by assumption. reflexivity.
    + rewrite replace_match by assumption.
      rewrite forallb_app in *. apply andb_true_iff in Hs.
      rewrite Hn, IH; tauto.
    + rewrite replace_copy by assumption. cbn [forallb] in *.
      apply andb_true_iff in Hs. destruct Hs as [-> Hs]. auto.
Qed.

Lemma transform_read (s : text) :
  forallb read_char s = true -> forallb read_char (transform s) = true.
Proof.
  intros H. unfold transform.
  repeat (apply replace_forallb; [|vm_compute; reflexivity]). exact H.
Qed.

(** ** Directories *)

Lemma lookup_store_same (es : list (text * node)) (n : text) (nd : node) :
  lookup (store es n nd) n = Some nd.
Proof.
  induction es as [|[k x] es IH]; cbn [store lookup].
  - rewrite text_eqb_refl; reflexivity.
  - destruct (text_eqb k n) eqn:E; cbn [lookup]; rewrite E; auto.
Qed.

Lemma lookup_store_other (es : list (text * node)) (n m : text) (nd : node) :
  m <> n -> lookup (store es n nd) m = lookup es m.
Proof.
  intros Hm. induction es as [|[k x] es IH]; cbn [store lookup].
  - apply text_eqb_neq in Hm.
    destruct (text_eqb n m) eqn:E; [|reflexivity].
    apply text_eqb_eq in E. apply text_eqb_neq in Hm. congruence.
  - destruct (text_eqb k n) eqn:E; cbn [lookup].
    + apply text_eqb_eq in E; subst k.
      destruct (text_eqb n m) eqn:E'; [|reflexivity].
      apply text_eqb_eq in E'. congruence.
    + rewrite IH; reflexivity.
Qed.

Lemma store_present_names (es : list (text * node)) (n : text) (nd : node) :
  lookup es n <> None -> map fst (store es n nd) = map fst es.
Proof.
  induction es as [|[k x] es IH]; cbn [store lookup map fst].
  - congruence.
  - destruct (text_eqb k n) eqn:E; cbn [map fst]; [reflexivity|].
    intros H; rewrite IH; auto.
Qed.

Lemma store_store_comm (es : list (text * node)) (n m : text) (a b : node) :
  n <> m -> lookup es n <> None -> lookup es m <> None ->
  store (store es n a) m b = store (store es m b) n a.
Proof.
  intros Hnm. induction es as [|[k x] es IH]; cbn [store lookup].
  - congruence.
  - destruct (text_eqb k n) eqn:En; destruct (text_eqb k m) eqn:Em;
      cbn [store]; rewrite ?En, ?Em; try reflexivity.
    + apply text_eqb_eq in En, Em. congruence.
    + intros H1 H2. rewrite IH; auto.
Qed.

Lemma store_store_same (es : list (text * node)) (n : text) (a b : node) :
  store (store es n a) n b = store es n b.
Proof.
  induction es as [|[k x] es IH]; cbn [store].
  - rewrite text_eqb_refl; reflexivity.
  - destruct (text_eqb k n) eqn:E; cbn [store]; rewrite E; congruence.
Qed.

(** ** Reading and writing one file *)

Lemma load_inv (t : target) (f content : text) :
  load t f = Return content ->
  exists l es data wr raw,
    t = Dir l es /\ lookup es f = Some (File data true wr)
    /\ utf8_decode data = Some raw /\ content = universal_newlines raw.
Proof.
  unfold load. destruct t as [| |l es]; try discriminate.
  destruct (lookup es f) as [[data [|] wr| |]|] eqn:E; try discriminate.
  destruct (utf8_decode data) as [raw|] eqn:D; [|discriminate].
  intros [= <-]. exists l, es, data, wr, raw. auto.
Qed.

Lemma load_read (t : target) (f content : text) :
  load t f = Return content -> forallb read_char content = true.
Proof.
  intros H. destruct (load_inv _ _ _ H) as (l & es & data & wr & raw & _ & _ & D & ->).
  apply universal_newlines_read. eapply decode_scalar; exact D.
Qed.

Lemma load_stored (l : bool) (es : list (text * node)) (f c : text)
      (bs : bytes) (wr : bool) :
  forallb read_char c = true -> utf8_encode c = Some bs ->
  load (Dir l (store es f (File bs true wr))) f = Return c.
Proof.
  intros Hc E. destruct (write_read c Hc) as (bs' & E1 & E2).
  assert (bs' = bs) by congruence. subst bs'.
  unfold load. rewrite lookup_store_same.
  destruct (utf8_decode bs); [|discriminate].
  cbn [option_map] in E2. congruence.
Qed.

(** Writing a readable text over a file that was read: either the file
    is not writable and nothing happens, or the file holds the text, reads
    back as that text, and nothing else has changed. *)
Lemma save_loaded (t : target) (f c c' : text) :
  load t f = Return c -> forallb read_char c' = true ->
  save t f c' = (Raise PermissionError, t)
  \/ exists l es data bs,
       t = Dir l es /\ lookup es f = Some (File data true true)
       /\ utf8_encode c' = Some bs
       /\ save t f c' = (Return tt, Dir l (store es f (File bs true true)))
       /\ load (Dir l (store es f (File bs true true))) f = Return c'.
Proof.
  intros H Hc.
  destruct (load_inv _ _ _ H) as (l & es & data & wr & raw & -> & E & D & ->).
  destruct (write_read c' Hc) as (bs & E1 & E2).
  unfold save. rewrite E. destruct wr; [right | left; reflexivity].
  exists l, es, data, bs. rewrite E1. repeat split; auto.
  apply load_stored; assumption.
Qed.

Lemma patch_turn (t : target) (f : text) : turn t f (patch t f).
Proof.
  unfold patch. destruct (load t f) as [c|e] eqn:L.
  - destruct (text_eqb (transform c) c) eqn:E; cbn [negb].
    + apply text_eqb_eq in E. eapply turn_keep; eauto.
    + apply text_eqb_neq in E.
      destruct (save_loaded t f c (transform c) L) as [S | S].
      { apply transform_read. eapply load_read; exact L. }
      * rewrite S. eapply turn_denied; eauto.
      * destruct S as (l & es & data & bs & Ht & El & Ee & S & _).
        rewrite S. eapply turn_write; eauto.
  - apply turn_raise; exact L.
Qed.

Lemma changes_spec (t : target) (f : text) :
  changes t f = true <->
  exists c, load t f = Return c /\ transform c <> c.
Proof.
  unfold changes. destruct (load t f) as [c|e].
  - rewrite negb_true_iff, text_eqb_neq. split.
    + intros H; exists c; auto.
    + intros (c' & [= <-] & H); exact H.
  - split; [discriminate | intros (c & H & _); discriminate].
Qed.

(** An exception in a turn of the loop leaves the directory as it was. *)
Lemma patch_raise (t t' : target) (f : text) (e : error) :
  patch t f = (Raise e, t') -> t' = t.
Proof.
  intros H. pose proof (patch_turn t f) as T. rewrite H in T.
  inversion T; subst; reflexivity.
Qed.

(** A turn of the loop that completes leaves every other file as it
    was. *)
Lemma patch_frame (t t' : target) (f g : text) :
  patch t f = (Return tt, t') -> g <> f -> load t' g = load t g.
Proof.
  intros H Hg. pose proof (patch_turn t f) as T. rewrite H in T.
  inversion T; subst; try reflexivity.
  unfold load. rewrite lookup_store_other by assumption. reflexivity.
Qed.

(** A turn of the loop that completes leaves the file settled. *)
Lemma patch_settles (t t' : target) (f : text) :
  patch t f = (Return tt, t') -> settled t' f.
Proof.
  intros H. pose proof (patch_turn t f) as T. rewrite H in T.
  inversion T as [e L | c L E | c L E S | c l es data bs L E Ht El Ee];
    subst.
  - exists c; auto.
  - exists (transform c). split; [|apply transform_idempotent].
    apply load_stored; [|exact Ee].
    apply transform_read. eapply load_read; exact L.
Qed.

Lemma patch_settled (t : target) (f : text) :
  settled t f -> patch t f = (Return tt, t) /\ changes t f = false.
Proof.
  intros (c & L & E). unfold patch, changes. rewrite L, E, text_eqb_refl.
  auto.
Qed.

Lemma patch_keeps_settled (t t' : target) (f g : text) :
  patch t g = (Return tt, t') -> settled t f -> settled t' f.
Proof.
  intros H S. destruct (list_eq_dec Z.eq_dec f g) as [-> | N].
  - eapply patch_settles; exact H.
  - destruct S as (c & L & E). exists c. split; [|exact E].
    rewrite (patch_frame _ _ _ _ H N). exact L.
Qed.

(** ** The loop on the directory *)

Lemma patch_print_return (t t' : target) (f : text) :
  patch_print t f = (Return tt, t') ->
  patch t f = (Return tt, t')
  /\ (changes t f = true -> printable (fixed_line f) = true).
Proof.
  unfold patch_print. destruct (patch t f) as [[[]|e] t1]; [|discriminate].
  destruct (changes t f); cbn [andb].
  - destruct (printable (fixed_line f)); cbn [negb]; [|discriminate].
    intros [= <-]. auto.
  - intros [= <-]. split; [reflexivity | discriminate].
Qed.

Lemma patch_print_of (t t' : target) (f : text) :
  patch t f = (Return tt, t') ->
  changes t f = false \/ printable (fixed_line f) = true ->
  patch_print t f = (Return tt, t').
Proof.
  intros P H. unfold patch_print. rewrite P.
  destruct H as [-> | ->]; [reflexivity|].
  rewrite andb_false_r. reflexivity.
Qed.

(** A turn of the loop that raises had nothing more to do to the
    directory than the file part of the turn. *)
Lemma patch_print_target (t : target) (f : text) :
  snd (patch_print t f) = snd (patch t f).
Proof.
  unfold patch_print. destruct (patch t f) as [[[]|e] t1]; [|reflexivity].
  destruct (changes t f && negb (printable (fixed_line f))); reflexivity.
Qed.

Lemma patch_print_settled (t : target) (f : text) :
  settled t f -> patch_print t f = (Return tt, t) /\ changes t f = false.
Proof.
  intros S. destruct (patch_settled t f S) as [P C].
  split; [|exact C]. apply patch_print_of; auto.
Qed.

Lemma patch_all_app (t : target) (l1 l2 : list text) :
  patch_all t (l1 ++ l2)
  = match patch_all t l1 with
    | (Return _, t') => patch_all t' l2
    | (Raise e, t') => (Raise e, t')
    end.
Proof.
  revert t; induction l1 as [|f l1 IH]; intros t; cbn [app patch_all].
  - reflexivity.
  - destruct (patch_print t f) as [[[]|e] t']; auto.
Qed.

(** After a pass that completes, every file of the pass is settled. *)
Lemma patch_all_settles (l : list text) (t t' : target) :
  patch_all t l = (Return tt, t') -> Forall (settled t') l.
Proof.
  revert t; induction l as [|f l IH]; intros t; cbn [patch_all].
  - constructor.
  - destruct (patch_print t f) as [[[]|e] t1] eqn:P; [|discriminate].
    intros H. constructor; [|eapply IH; exact H].
    apply patch_print_return in P. destruct P as [P _].
    apply patch_settles in P. clear IH. revert t1 P H.
    induction l as [|g l IH]; intros t1 P; cbn [patch_all].
    + intros [= <-]; exact P.
    + destruct (patch_print t1 g) as [[[]|e] t2] eqn:P2; [|discriminate].
      apply patch_print_return in P2. destruct P2 as [P2 _].
      apply IH. eapply patch_keeps_settled; eauto.
Qed.


(** A pass that completes keeps the listing. *)
Lemma patch_listing (t t' : target) (f : text) :
  patch t f = (Return tt, t') ->
  forall l es, t = Dir l es ->
    exists es', t' = Dir l es' /\ map fst es' = map fst es.
Proof.
  intros H l0 es0 ->. pose proof (patch_turn (Dir l0 es0) f) as T.
  rewrite H in T.
  inversion T as [e L | c L E | c L E S | c l es data bs L E Ht El Ee];
    subst.
  - eauto.
  - injection Ht as <- <-. eexists; split; [reflexivity|].
    apply store_present_names. congruence.
Qed.

Lemma patch_all_listing (fl : list text) (t t' : target) :
  patch_all t fl = (Return tt, t') ->
  forall l es, t = Dir l es ->
    exists es', t' = Dir l es' /\ map fst es' = map fst es.
Proof.
  revert t; induction fl as [|f fl IH]; intros t; cbn [patch_all].
  - intros [= <-] l es ->. eauto.
  - destruct (patch_print t f) as [[[]|e] t1] eqn:P; [|discriminate].
    apply patch_print_return in P. destruct P as [P _].
    intros H l es Ht.
    destruct (patch_listing _ _ _ P l es Ht) as (es1 & Ht1 & E1).
    destruct (IH _ H l es1 Ht1) as (es' & Ht' & E').
    exists es'. split; [exact Ht' | congruence].
Qed.

(** Two turns of the loop on different files can be exchanged. *)
Lemma patch_swap (t t1 t2 : target) (x y : text) :
  x <> y ->
  patch t x = (Return tt, t1) -> patch t1 y = (Return tt, t2) ->
  exists t1', patch t y = (Return tt, t1') /\ patch t1' x = (Return tt, t2)
              /\ changes t y = changes t1 y /\ changes t1' x = changes t x.
Proof.
  intros N Px Py.
  assert (Ly : load t1 y = load t y)
    by (eapply patch_frame; [exact Px | congruence]).
  pose proof (patch_turn t x) as Tx. rewrite Px in Tx.
  pose proof (patch_turn t1 y) as Ty. rewrite Py in Ty.
  inversion Tx as [e L | c L E | c L E S | c l es data bs L E Ht El Ee];
    subst.
  - (* x kept *)
    exists t2.
    assert (Lx : load t2 x = load t1 x) by (eapply patch_frame; eauto).
    split; [exact Py|]. split; [|split; [reflexivity|]].
    + unfold patch. rewrite Lx, L, E, text_eqb_refl. reflexivity.
    + unfold changes. rewrite Lx. reflexivity.
  - inversion Ty as [e' L' | c' L' E' | c' L' E' S'
                    | c' l' es' data' bs' L' E' Ht' El' Ee']; subst.
    + (* x written, y kept *)
      exists (Dir l es). rewrite Ly in L'.
      repeat split.
      * unfold patch. rewrite L', E', text_eqb_refl. reflexivity.
      * exact Px.
      * unfold changes. rewrite Ly. reflexivity.
    + (* both written *)
      injection Ht' as <- <-. rewrite Ly in L'.
      rewrite lookup_store_other in El' by congruence.
      exists (Dir l (store es y (File bs' true true))).
      assert (Lx : load (Dir l (store es y (File bs' true true))) x
                   = load (Dir l es) x).
      { unfold load. rewrite lookup_store_other by assumption. reflexivity. }
      repeat split.
      * unfold patch. rewrite L'.
        apply text_eqb_neq in E'. rewrite E'. cbn [negb].
        unfold save. rewrite El', Ee'. reflexivity.
      * unfold patch. rewrite Lx, L.
        apply text_eqb_neq in E. rewrite E. cbn [negb].
        unfold save. rewrite lookup_store_other, El, Ee by assumption.
        rewrite store_store_comm; congruence.
      * unfold changes. rewrite Ly. reflexivity.
      * unfold changes. rewrite Lx. reflexivity.
Qed.

(** In a model where every name has its own file, the order of the files
    does not matter to a pass that completes: every other order completes
    too, with the same directory, and reports the same names. *)
Lemma patch_all_perm (l1 l2 : list text) :
  Permutation l1 l2 ->
  forall t t', patch_all t l1 = (Return tt, t') ->
    patch_all t l2 = (Return tt, t')
    /\ Permutation (reported t l1) (reported t l2).
Proof.
  induction 1 as [|x l1 l2 HP IH|x y l|l1 l2 l3 HP1 IH1 HP2 IH2];
    intros t t'.
  - auto.
  - cbn [patch_all reported].
    destruct (patch_print t x) as [[[]|e] t1]; [|discriminate].
    intros H. destruct (IH _ _ H) as [H1 H2]. split; [exact H1|].
    apply Permutation_app_head, H2.
  - cbn [patch_all reported].
    destruct (patch_print t y) as [[[]|e] t1] eqn:Py; [|discriminate].
    destruct (patch_print t1 x) as [[[]|e] t2] eqn:Px; [|discriminate].
    intros H. destruct (list_eq_dec Z.eq_dec y x) as [-> | N].
    + rewrite Py, Px. auto.
    + destruct (patch_print_return _ _ _ Py) as [Qy Ry].
      destruct (patch_print_return _ _ _ Px) as [Qx Rx].
      destruct (patch_swap t t1 t2 y x N Qy Qx)
        as (t1' & Qx' & Qy' & C1 & C2).
      assert (Px' : patch_print t x = (Return tt, t1')).
      { apply patch_print_of; [exact Qx'|].
        rewrite C1. destruct (changes t1 x); auto. }
      assert (Py' : patch_print t1' y = (Return tt, t2)).
      { apply patch_print_of; [exact Qy'|].
        rewrite C2. destruct (changes t y); auto. }
      rewrite Px', Py', C1, C2. split; [exact H|].
      rewrite !app_assoc. apply Permutation_app_tail.
      apply Permutation_app_comm.
  - intros H. destruct (IH1 _ _ H) as [H1 P1].
    destruct (IH2 _ _ H1) as [H2 P2]. split; [exact H2|].
    eapply Permutation_trans; eauto.
Qed.

(** ** The process *)

Lemma done_message_printable : printable done_message = true.
Proof. vm_compute. reflexivity. Qed.

Lemma process_file_patch (f : text) (w : world) :
  process_file f w
  = (fst (patch_print (fs w) f),
     World (snd (patch_print (fs w) f))
           (stdout w ++ map fixed_line (reported (fs w) [f]))
           (ops w ++ attempted (fs w) [f])).
Proof.
  unfold process_file, bind, read_text, maybe_write.
  cbn [reported attempted]. unfold patch_print, patch, changes.
  destruct (load (fs w) f) as [c|e]; cbn [fst snd map app].
  - destruct (negb (text_eqb (transform c) c)); cbn [andb].
    + unfold bind, write_text, print, log. cbn [fs stdout ops].
      destruct (save (fs w) f (transform c)) as [[[]|e] t'];
        cbn [fst snd fs stdout ops map app].
      * destruct (printable (fixed_line f));
          cbn [negb fst snd fs stdout ops map app];
          rewrite <- ?app_assoc, ?app_nil_r; reflexivity.
      * rewrite <- ?app_assoc, ?app_nil_r; reflexivity.
    + unfold ret, log. cbn [map app]. rewrite !app_nil_r. reflexivity.
  - unfold log. rewrite app_nil_r. reflexivity.
Qed.

(** The loop does to the world what [patch_all] does to the directory,
    prints what [reported] lists and attempts what [attempted] lists. *)
Lemma for_each_patch_all (l : list text) (w : world) :
  for_each l process_file w
  = (fst (patch_all (fs w) l),
     World (snd (patch_all (fs w) l))
           (stdout w ++ map fixed_line (reported (fs w) l))
           (ops w ++ attempted (fs w) l)).
Proof.
  revert w; induction l as [|f l IH]; intros w.
  - cbn. rewrite !app_nil_r. destruct w; reflexivity.
  - cbn [for_each]. unfold bind at 1. rewrite process_file_patch.
    cbn [reported attempted patch_all].
    destruct (patch_print (fs w) f) as [[[]|e] t'] eqn:P; cbn [fst snd].
    + rewrite IH. cbn [fs stdout ops].
      rewrite !app_nil_r, !map_app, <- !app_assoc. reflexivity.
    + cbn [map app]. rewrite !app_nil_r. reflexivity.
Qed.

(** The whole script, in closed form. *)
Lemma run_unfold (w : world) :
  run w =
  match fs w with
  | NoSuchDir => (Raise FileNotFoundError, log OpListdir w)
  | NotDir => (Raise NotADirectoryError, log OpListdir w)
  | Dir false _ => (Raise PermissionError, log OpListdir w)
  | Dir true es =>
      let l := cs_files (map fst es) in
      let out := stdout w ++ map fixed_line (reported (fs w) l) in
      let tr := ops w ++ OpListdir :: attempted (fs w) l in
      match patch_all (fs w) l with
      | (Return _, t') => (Return tt, World t' (out ++ [done_message]) tr)
      | (Raise e, t') => (Raise e, World t' out tr)
      end
  end.
Proof.
  unfold run, bind at 1, listdir. cbn [log fs].
  destruct (fs w) as [| |[|] es] eqn:F; try reflexivity.
  unfold bind. rewrite for_each_patch_all. unfold log.
  cbn [fs stdout ops]. rewrite F.
  destruct (patch_all (Dir true es) (cs_files (map fst es))) as [[[]|e] t'];
    unfold print; rewrite ?done_message_printable;
    cbn [fst snd fs stdout ops]; rewrite <- ?app_assoc; reflexivity.
Qed.

(** ** Helpers for the loop *)

Lemma encode_app (a b : text) :
  utf8_encode (a ++ b)
  = match utf8_encode a, utf8_encode b with
    | Some x, Some y => Some (x ++ y)
    | _, _ => None
    end.
Proof.
  induction a as [|c a IH]; cbn [app utf8_encode].
  - destruct (utf8_encode b); reflexivity.
  - rewrite IH. destruct (encode_char c) as [pc|]; [|reflexivity].
    destruct (utf8_encode a) as [x|]; [|reflexivity].
    destruct (utf8_encode b) as [y|]; [|reflexivity].
    rewrite app_assoc. reflexivity.
Qed.

Lemma for_each_app {A : Type} (l1 l2 : list A) (body : A -> io unit)
      (w : world) :
  for_each (l1 ++ l2) body w
  = match for_each l1 body w with
    | (Return _, w') => for_each l2 body w'
    | (Raise e, w') => (Raise e, w')
    end.
Proof.
  revert w; induction l1 as [|x l1 IH]; intros w; cbn [app for_each].
  - reflexivity.
  - unfold bind. destruct (body x w) as [[[]|e] w']; auto.
Qed.

Lemma reported_incl (l : list text) (t : target) (f : text) :
  In f (reported t l) -> In f l.
Proof.
  revert t; induction l as [|g l IH]; intros t; cbn [reported]; [tauto|].
  destruct (patch_print t g) as [[[]|e] t']; [|intros []].
  rewrite in_app_iff. intros [H | H].
  - destruct (changes t g); [|destruct H].
    destruct H as [<- | []]. left; reflexivity.
  - right. eapply IH; exact H.
Qed.


(** * The claims *)

(** C1. For every text, the four [replace] calls of the script are the left
    fold over the four rules, in their order, of the specification's
    replace-all (leftmost occurrence first, resuming after it); a fold
    feeds each rule the output of the previous one, so that a later rule does
    apply to text an earlier rule produced, as in the constructed case where
    the first rule turns [ab] into [bb], which the second rule consumes. *)
Theorem transform_apply_rules :
  (forall content, transform content = apply_rules content rules)
  /\ (forall content r rs,
        apply_rules content (r :: rs)
        = apply_rules (replace_all content (fst r) (snd r)) rs)
  /\ (forall content old new,
        old <> [] -> replace content old new = replace_all content old new)
  /\ apply_rules (str "ab") [(str "a", str "b"); (str "bb", str "c")]
     = str "c".
Proof.
  split; [|split; [|split]].
  - intros content. unfold apply_rules, rules. cbn [fold_left fst snd].
    rewrite !replace_all_correct by (vm_compute; discriminate).
    reflexivity.
  - reflexivity.
  - intros; symmetry; apply replace_all_correct; assumption.
  - vm_compute; reflexivity.
Qed.



(** C3. A file whose text has none of the four patterns: the transform
    returns the text as it is, and the turn of the loop only reads the file:
    the directory is as before, no write is attempted and nothing is
    printed. *)
Theorem pattern_free_untouched (filename content : text) (w : world) :
  load (fs w) filename = Return content ->
  pattern_free content = true ->
  transform content = content
  /\ process_file filename w
     = (Return tt, World (fs w) (stdout w) (ops w ++ [OpRead filename])).
Proof.
  intros L H. pose proof (transform_absent _ H) as E. split; [exact E|].
  rewrite process_file_patch. cbn [reported attempted].
  unfold patch_print, patch, changes. rewrite L, E, text_eqb_refl.
  cbn [negb andb fst snd map app]. rewrite app_nil_r. reflexivity.
Qed.

Lemma pattern_free_untouched_witness :
  transform sample_B = sample_B
  /\ process_file (str "B.cs") sample_world
     = (Return tt, World (fs sample_world) (stdout sample_world)
                         (ops sample_world ++ [OpRead (str "B.cs")])).
Proof.
  apply (pattern_free_untouched (str "B.cs") sample_B sample_world);
    vm_compute; reflexivity.
Defined.

(** C4. The code selects by name alone, though its comment says that it
    gets all .cs files: a subdirectory whose own name ends in [.cs] is taken
    as a candidate.  In a directory with the subdirectory [sub.cs] and the file
    [z.cs], [sub.cs] is selected, opening it raises, and the run ends there:
    [z.cs], which has a pattern, is never read. *)
Theorem subdirectory_selected :
  listdir subdir_world
  = (Return [str "sub.cs"; str "z.cs"], log OpListdir subdir_world)
  /\ cs_files [str "sub.cs"; str "z.cs"] = [str "sub.cs"; str "z.cs"]
  /\ load (fs subdir_world) (str "sub.cs") = Raise IsADirectoryError
  /\ run subdir_world
     = (Raise IsADirectoryError,
        World (fs subdir_world) [] [OpListdir; OpRead (str "sub.cs")])
  /\ load (fs subdir_world) (str "z.cs") = Return GETUTCDATE.
Proof. repeat split; vm_compute; reflexivity. Qed.

(** What the comprehension selects: the names of the entries directly
    inside the directory that end in [.cs], in listing order, whatever the
    kind of the entry; nothing inside a subdirectory is listed. *)
Theorem cs_files_by_name (w w' : world) (listing : list text) :
  listdir w = (Return listing, w') ->
  exists es,
    fs w = Dir true es
    /\ listing = map fst es
    /\ cs_files listing
       = map fst (filter (fun e => endswith (fst e) (str ".cs")) es)
    /\ forall f,
         In f (cs_files listing) <->
         (exists nd, In (f, nd) es) /\ (exists stem, f = stem ++ str ".cs").
Proof.
  unfold listdir. cbn [log fs].
  destruct (fs w) as [| |[|] es]; try discriminate.
  intros [= <- <-]. exists es. repeat split.
  - unfold cs_files. induction es as [|[n nd] es IH]; [reflexivity|].
    cbn [map filter fst]. destruct (endswith n (str ".cs")); cbn [map fst];
      rewrite IH; reflexivity.
  - unfold cs_files in H. apply filter_In in H. destruct H as [H _].
    apply in_map_iff in H. destruct H as ([n nd] & <- & H). exists nd; exact H.
  - unfold cs_files in H. apply filter_In in H. destruct H as [_ H].
    apply endswith_spec; exact H.
  - intros [[nd H] E]. unfold cs_files. apply filter_In. split.
    + apply in_map_iff. exists (f, nd); auto.
    + apply endswith_spec; exact E.
Qed.

Lemma cs_files_by_name_witness :
  exists es,
    fs nested_world = Dir true es
    /\ [str "notes.txt"; str "sub.cs"] = map fst es
    /\ cs_files [str "notes.txt"; str "sub.cs"]
       = map fst (filter (fun e => endswith (fst e) (str ".cs")) es)
    /\ forall f,
         In f (cs_files [str "notes.txt"; str "sub.cs"]) <->
         (exists nd, In (f, nd) es) /\ (exists stem, f = stem ++ str ".cs").
Proof.
  apply (cs_files_by_name nested_world (log OpListdir nested_world)).
  vm_compute. reflexivity.
Defined.

(** It is not so that a subdirectory is never selected. *)
Lemma cs_files_selects_subdir :
  ~ (forall es f children,
       lookup es f = Some (Subdir children) ->
       ~ In f (cs_files (map fst es))).
Proof.
  intros H.
  apply (H [(str "notes.txt", File GETUTCDATE true true);
            (str "sub.cs", Subdir [(str "inner.cs", File GETUTCDATE true true)])]
           (str "sub.cs") [(str "inner.cs", File GETUTCDATE true true)]).
  - vm_compute. reflexivity.
  - vm_compute. left. reflexivity.
Qed.

(** C5. The two spellings the rules name become [HasColumnType("text")]
    wherever they stand, and the mixed-case spelling stays as it is wherever
    it stands; a text that has the mixed-case spelling and no pattern around
    it is unchanged. *)
Theorem case_sensitive_rules :
  (forall a b,
     transform (a ++ HasColumnType "NVARCHAR(MAX)" ++ b)
     = transform a ++ HasColumnType "text" ++ transform b)
  /\ (forall a b,
        transform (a ++ HasColumnType "nvarchar(max)" ++ b)
        = transform a ++ HasColumnType "text" ++ transform b)
  /\ (forall a b,
        transform (a ++ HasColumnType "NVarchar(Max)" ++ b)
        = transform a ++ HasColumnType "NVarchar(Max)" ++ transform b)
  /\ (forall a b,
        pattern_free a = true -> pattern_free b = true ->
        transform (a ++ HasColumnType "NVarchar(Max)" ++ b)
        = a ++ HasColumnType "NVarchar(Max)" ++ b)
  /\ transform (HasColumnType "NVARCHAR(MAX)") = HasColumnType "text"
  /\ transform (HasColumnType "nvarchar(max)") = HasColumnType "text"
  /\ transform (HasColumnType "NVarchar(Max)") = HasColumnType "NVarchar(Max)".
Proof.
  assert (M : forall a b,
             transform (a ++ HasColumnType "NVarchar(Max)" ++ b)
             = transform a ++ HasColumnType "NVarchar(Max)" ++ transform b).
  { intros a b. apply transform_around. vm_compute; reflexivity. }
  repeat split; try (vm_compute; reflexivity).
  - apply transform_NVARCHAR.
  - apply transform_nvarchar.
  - exact M.
  - intros a b Ha Hb. rewrite M, !transform_absent by assumption. reflexivity.
Qed.

Lemma case_sensitive_rules_witness :
  transform (sample_B ++ HasColumnType "NVarchar(Max)" ++ str ";")
  = sample_B ++ HasColumnType "NVarchar(Max)" ++ str ";".
Proof.
  apply (proj1 (proj2 (proj2 (proj2 case_sensitive_rules))));
    vm_compute; reflexivity.
Defined.

(** C6, as the code has it. The occurrence of [GETUTCDATE()] is replaced
    by [NOW()] where it stands, the text on its two sides going through the
    transform on its own; when it is the only occurrence and the text has
    none of the other three patterns, all other text is unchanged. *)
Theorem single_GETUTCDATE :
  (forall l r,
     transform (l ++ GETUTCDATE ++ r) = transform l ++ NOW ++ transform r)
  /\ (forall l r,
        occurrences (l ++ GETUTCDATE ++ r) GETUTCDATE = 1%nat ->
        contains (l ++ GETUTCDATE ++ r) (HasColumnType "datetime") = false ->
        contains (l ++ GETUTCDATE ++ r) (HasColumnType "NVARCHAR(MAX)") = false ->
        contains (l ++ GETUTCDATE ++ r) (HasColumnType "nvarchar(max)") = false ->
        transform (l ++ GETUTCDATE ++ r) = l ++ NOW ++ r).
Proof.
  split; [exact transform_GETUTCDATE|].
  intros l r H1 H2 H3 H4.
  destruct (single_occurrence l r GETUTCDATE) as [Hl Hr];
    [vm_compute; discriminate | exact H1 |].
  rewrite transform_GETUTCDATE.
  assert (Fl : pattern_free l = true).
  { apply pattern_free_inv. intros q [<- | [<- | [<- | [<- | []]]]];
      cbn [fst]; auto; eapply contains_app_l; eassumption. }
  assert (Fr : pattern_free r = true).
  { apply pattern_free_inv. intros q [<- | [<- | [<- | [<- | []]]]];
      cbn [fst]; auto;
      eapply contains_app_r, contains_app_r; eassumption. }
  rewrite !transform_absent by assumption. reflexivity.
Qed.

Lemma single_GETUTCDATE_witness :
  transform (str "x = " ++ GETUTCDATE ++ str ";") = str "x = " ++ NOW ++ str ";".
Proof.
  apply (proj2 single_GETUTCDATE (str "x = ") (str ";"));
    vm_compute; reflexivity.
Defined.

(** C6, as stated, fails: in the text
    [col.HasColumnType("datetime").HasDefaultValueSql("GETUTCDATE()")] the
    pattern occurs once and the second rule changes other text. *)
Lemma single_GETUTCDATE_other_rules :
  ~ (forall l r,
       occurrences (l ++ GETUTCDATE ++ r) GETUTCDATE = 1%nat ->
       transform (l ++ GETUTCDATE ++ r) = l ++ NOW ++ r).
Proof.
  intros H.
  specialize (H (str "col." ++ HasColumnType "datetime"
                 ++ str ".HasDefaultValueSql(" ++ [dq])
                ([dq] ++ str ")")).
  vm_compute in H. specialize (H eq_refl). discriminate H.
Qed.

(** C7, as the code has it. The guarded write: with equal texts nothing
    is done; with different texts the write is attempted, and a write that
    raises prints nothing; after a write that completes, the line
    [Fixed: <filename>] is printed once, unless standard output cannot
    encode the name, in which case the file stays rewritten, no line comes
    out and the exception goes up.  A write that completes on a writable
    file leaves it holding the encoded text.  A run that completes prints
    one [Fixed:] line for each name in [reported] and then, once and last,
    the final message. *)
Theorem maybe_write_spec (filename original content : text) (w : world) :
  (content = original ->
   maybe_write filename original content w = (Return tt, w))
  /\ (content <> original ->
      forall e t', save (fs w) filename content = (Raise e, t') ->
        maybe_write filename original content w
        = (Raise e, World t' (stdout w) (ops w ++ [OpWrite filename])))
  /\ (content <> original ->
      forall t', save (fs w) filename content = (Return tt, t') ->
        maybe_write filename original content w
        = if printable (str "Fixed: " ++ filename)
          then (Return tt,
                World t' (stdout w ++ [str "Fixed: " ++ filename])
                      (ops w ++ [OpWrite filename]))
          else (Raise UnicodeEncodeError,
                World t' (stdout w) (ops w ++ [OpWrite filename])))
  /\ (printable (str "Fixed: " ++ filename) = true
      <-> exists bs, utf8_encode filename = Some bs)
  /\ (forall l es data r bs,
        fs w = Dir l es -> lookup es filename = Some (File data r true) ->
        utf8_encode content = Some bs ->
        exists es',
          save (fs w) filename content = (Return tt, Dir l es')
          /\ lookup es' filename = Some (File bs r true))
  /\ (forall w',
        run w = (Return tt, w') ->
        exists es,
          fs w = Dir true es
          /\ stdout w'
             = stdout w
               ++ map (fun f => str "Fixed: " ++ f)
                      (reported (fs w) (cs_files (map fst es)))
               ++ [[10] ++ str "Done! All basic PostgreSQL fixes applied."]).
Proof.
  split; [|split; [|split; [|split; [|split]]]].
  - intros ->. unfold maybe_write. rewrite text_eqb_refl. reflexivity.
  - intros N e t' S. unfold maybe_write.
    apply text_eqb_neq in N. rewrite N. cbn [negb].
    unfold bind, write_text, log. cbn [fs stdout ops]. rewrite S.
    reflexivity.
  - intros N t' S. unfold maybe_write.
    apply text_eqb_neq in N. rewrite N. cbn [negb].
    unfold bind, write_text, log. cbn [fs stdout ops]. rewrite S.
    unfold print, fixed_line. cbn [fs stdout ops].
    destruct (printable (str "Fixed: " ++ filename)); reflexivity.
  - unfold printable. rewrite encode_app.
    replace (utf8_encode (str "Fixed: ")) with (Some (str "Fixed: "))
      by (vm_compute; reflexivity).
    destruct (utf8_encode filename) as [bs|]; split; eauto.
    + discriminate.
    + intros [bs H]; discriminate.
  - intros l es data r bs Hfs Hl He.
    exists (store es filename (File bs r true)). split.
    + rewrite Hfs. unfold save. rewrite Hl, He. reflexivity.
    + apply lookup_store_same.
  - intros w'. rewrite run_unfold.
    destruct (fs w) as [| |[|] es] eqn:F; try discriminate. cbv zeta.
    destruct (patch_all (Dir true es) (cs_files (map fst es)))
      as [[[]|e] t']; [|discriminate].
    intros [= <-]. exists es. cbn [stdout]. rewrite <- app_assoc. auto.
Qed.

Lemma maybe_write_spec_witness :
  maybe_write (str "A.cs") sample_A sample_A_fixed sample_world
  = if printable (str "Fixed: " ++ str "A.cs")
    then (Return tt,
          World (Dir true [ (str "A.cs", File sample_A_fixed true true);
                            (str "B.cs", File sample_B true true) ])
                (stdout sample_world ++ [str "Fixed: " ++ str "A.cs"])
                (ops sample_world ++ [OpWrite (str "A.cs")]))
    else (Raise UnicodeEncodeError,
          World (Dir true [ (str "A.cs", File sample_A_fixed true true);
                            (str "B.cs", File sample_B true true) ])
                (stdout sample_world)
                (ops sample_world ++ [OpWrite (str "A.cs")])).
Proof.
  apply (proj1 (proj2 (proj2 (maybe_write_spec (str "A.cs") sample_A
                                               sample_A_fixed sample_world)))).
  - vm_compute. discriminate.
  - vm_compute. reflexivity.
Defined.

(** C7, as stated, fails: a file whose name is not valid UTF-8 is listed
    under a name with a surrogate; the write completes, the file holds the
    new text, and no [Fixed:] line is printed. *)
Lemma rewritten_but_not_reported :
  ~ (forall filename original content w t',
       content <> original ->
       save (fs w) filename content = (Return tt, t') ->
       stdout (snd (maybe_write filename original content w))
       = stdout w ++ [str "Fixed: " ++ filename]).
Proof.
  intros H.
  specialize (H odd_name GETUTCDATE NOW odd_world
                (Dir true [(odd_name, File NOW true true)])).
  assert (G : stdout (snd (maybe_write odd_name GETUTCDATE NOW odd_world))
              = []) by (vm_compute; reflexivity).
  rewrite G in H. cbn [stdout odd_world app] in H.
  assert (N : NOW <> GETUTCDATE) by (vm_compute; discriminate).
  specialize (H N ltac:(vm_compute; reflexivity)). discriminate H.
Qed.

(** C8. Nothing is caught and nothing is undone.  An exception of the
    listing ends the run before anything is read or printed; an exception
    of a read or of a write ends the turn of the loop with that exception;
    and when the turn for some file raises, the run ends there with that
    exception, the later files are not touched, nothing more is printed,
    and every file of an earlier turn reads as that turn left it: the
    directory is the one the earlier turns left, except that a turn which
    raises in printing its [Fixed:] line has already rewritten its own
    file. *)
Theorem errors_propagate :
  (forall w e w',
     listdir w = (Raise e, w') ->
     run w = (Raise e, w') /\ fs w' = fs w /\ stdout w' = stdout w)
  /\ (forall w f e,
        load (fs w) f = Raise e ->
        process_file f w = (Raise e, World (fs w) (stdout w) (ops w ++ [OpRead f])))
  /\ (forall w f c e t',
        load (fs w) f = Return c -> transform c <> c ->
        save (fs w) f (transform c) = (Raise e, t') ->
        process_file f w
        = (Raise e, World t' (stdout w) (ops w ++ [OpRead f; OpWrite f])))
  /\ (forall w listing w0 pre f post w1 e w2,
        listdir w = (Return listing, w0) ->
        cs_files listing = pre ++ f :: post ->
        for_each pre process_file w0 = (Return tt, w1) ->
        process_file f w1 = (Raise e, w2) ->
        run w = (Raise e, w2)
        /\ stdout w2 = stdout w1
        /\ (e <> UnicodeEncodeError -> fs w2 = fs w1)
        /\ (forall g, In g pre -> load (fs w2) g = load (fs w1) g))
  /\ (forall w f c t',
        load (fs w) f = Return c -> transform c <> c ->
        save (fs w) f (transform c) = (Return tt, t') ->
        printable (str "Fixed: " ++ f) = false ->
        process_file f w
        = (Raise UnicodeEncodeError,
           World t' (stdout w) (ops w ++ [OpRead f; OpWrite f]))).
Proof.
  split; [|split; [|split; [|split]]].
  - intros w e w' H. unfold run, bind. rewrite H. split; [reflexivity|].
    unfold listdir in H. cbn [log fs] in H.
    destruct (fs w) as [| |[|] es] eqn:F; inversion H; subst; unfold log;
      cbn [fs stdout]; auto.
  - intros w f e L. unfold process_file, bind, read_text. rewrite L.
    reflexivity.
  - intros w f c e t' L N S. unfold process_file, bind, read_text. rewrite L.
    unfold maybe_write. apply text_eqb_neq in N. rewrite N. cbn [negb].
    unfold bind, write_text, log. cbn [fs stdout ops]. rewrite S.
    rewrite <- app_assoc. reflexivity.
  - intros w listing w0 pre f post w1 e w2 HL HC HP HF. split.
    + unfold run, bind at 1. rewrite HL, HC. unfold bind at 1.
      rewrite for_each_app, HP. cbn [for_each]. unfold bind. rewrite HF.
      reflexivity.
    + rewrite process_file_patch in HF. cbn [reported] in HF.
      assert (ST : Forall (settled (fs w1)) pre).
      { rewrite for_each_patch_all in HP.
        destruct (patch_all (fs w0) pre) as [[[]|e'] t1] eqn:PA;
          cbn [fst snd] in HP; [|discriminate].
        injection HP as <-. cbn [fs]. eapply patch_all_settles; exact PA. }
      destruct (patch_print (fs w1) f) as [[[]|e'] t'] eqn:P;
        cbn [fst snd] in HF; [discriminate|].
      injection HF as <- <-. cbn [fs stdout map]. rewrite app_nil_r.
      split; [reflexivity|].
      pose proof (patch_print_target (fs w1) f) as TG. rewrite P in TG.
      cbn [snd] in TG.
      split.
      * intros NE. unfold patch_print in P.
        destruct (patch (fs w1) f) as [[[]|e2] t2] eqn:Q.
        -- destruct (changes (fs w1) f
                     && negb (printable (fixed_line f))); congruence.
        -- injection P as _ <-. eapply patch_raise; exact Q.
      * intros g Hg. rewrite Forall_forall in ST.
        destruct (list_eq_dec Z.eq_dec g f) as [-> | N].
        -- destruct (patch_print_settled _ _ (ST f Hg)) as [P' _].
           congruence.
        -- subst t'. destruct (patch (fs w1) f) as [[[]|e2] t2] eqn:Q;
             cbn [snd].
           ++ eapply patch_frame; eassumption.
           ++ apply patch_raise in Q. subst t2. reflexivity.
  - intros w f c t' L N S NP.
    unfold process_file, bind, read_text. rewrite L.
    unfold maybe_write. apply text_eqb_neq in N. rewrite N. cbn [negb].
    unfold bind, write_text, log. cbn [fs stdout ops]. rewrite S.
    unfold print, fixed_line. rewrite NP. cbn [fs stdout ops].
    rewrite <- app_assoc. reflexivity.
Qed.

Lemma errors_propagate_witness :
  run broken_world
  = (Raise UnicodeDecodeError,
     World (Dir true [ (str "A.cs", File NOW true true);
                       (str "B.cs", File [0xFF] true true) ])
           [fixed_line (str "A.cs")]
           [OpListdir; OpRead (str "A.cs"); OpWrite (str "A.cs");
            OpRead (str "B.cs")]).
Proof.
  refine (proj1 (proj1 (proj2 (proj2 (proj2 errors_propagate)))
                  broken_world [str "A.cs"; str "B.cs"]
                  (log OpListdir broken_world)
                  [str "A.cs"] (str "B.cs") []
                  (World (Dir true [ (str "A.cs", File NOW true true);
                                     (str "B.cs", File [0xFF] true true) ])
                         [fixed_line (str "A.cs")]
                         [OpListdir; OpRead (str "A.cs"); OpWrite (str "A.cs")])
                  UnicodeDecodeError _ _ _ _ _));
    vm_compute; reflexivity.
Defined.

(** C9, as the code has it. Two orders of the candidates on which the
    loop completes leave the same directory: the final content of every file
    is the same.  (Which names the [Fixed:] lines report is not part of
    this.) *)
Theorem order_independent (l1 l2 : list text) (w w1 w2 : world) :
  Permutation l1 l2 ->
  for_each l1 process_file w = (Return tt, w1) ->
  for_each l2 process_file w = (Return tt, w2) ->
  fs w2 = fs w1.
Proof.
  intros HP. rewrite !for_each_patch_all.
  destruct (patch_all (fs w) l1) as [[[]|e] t1] eqn:P1; cbn [fst snd];
    [|discriminate].
  intros [= <-].
  destruct (patch_all_perm _ _ HP _ _ P1) as [P2 _]. rewrite P2.
  cbn [fst snd]. intros [= <-]. reflexivity.
Qed.

Lemma order_independent_witness :
  fs (World (Dir true [ (str "A.cs", File sample_A_fixed true true);
                        (str "B.cs", File sample_B true true) ])
            [fixed_line (str "A.cs")]
            [OpRead (str "B.cs"); OpRead (str "A.cs"); OpWrite (str "A.cs")])
  = fs (World (Dir true [ (str "A.cs", File sample_A_fixed true true);
                          (str "B.cs", File sample_B true true) ])
              [fixed_line (str "A.cs")]
              [OpRead (str "A.cs"); OpWrite (str "A.cs"); OpRead (str "B.cs")]).
Proof.
  apply (order_independent
           [str "A.cs"; str "B.cs"] [str "B.cs"; str "A.cs"] sample_world).
  - apply perm_swap.
  - vm_compute. reflexivity.
  - vm_compute. reflexivity.
Defined.

(** C9, as stated, fails: with a file that cannot be decoded, the file
    before it in the order is rewritten and the file after it is not. *)
Lemma order_matters_on_failure :
  ~ (forall l1 l2 w,
       Permutation l1 l2 ->
       fs (snd (for_each l1 process_file w))
       = fs (snd (for_each l2 process_file w))).
Proof.
  intros H.
  specialize (H [str "A.cs"; str "B.cs"] [str "B.cs"; str "A.cs"]
                broken_world (perm_swap _ _ _)).
  vm_compute in H. discriminate H.
Qed.



(** * Further lemmas *)

(** ** The rules commute *)

Lemma replace_commute (p1 n1 p2 n2 : text) :
  commuting (p1, n1) (p2, n2) = true ->
  forall s,
    replace (replace s p1 n1) p2 n2 = replace (replace s p2 n2) p1 n1.
Proof.
  unfold commuting. cbn [fst snd].
  rewrite !andb_true_iff, !text_nonempty.
  intros [[[[[H1 H2] C12] C21] A21] A12] s.
  destruct (apart_inv _ _ A21) as (_ & S21 & _).
  destruct (apart_inv _ _ A12) as (_ & S12 & _).
  remember (length s) as n eqn:En.
  revert s En; induction n as [n IH] using lt_wf_ind; intros s En.
  assert (L1 : length p1 <> 0%nat) by (rewrite length_zero_iff_nil; auto).
  assert (L2 : length p2 <> 0%nat) by (rewrite length_zero_iff_nil; auto).
  destruct s as [|c s].
  { rewrite !replace_nil by assumption. reflexivity. }
  destruct (startswith (c :: s) p1) eqn:E1.
  { apply startswith_split in E1. rewrite E1.
    set (r := skipn (length p1) (c :: s)).
    rewrite (replace_match p1), (replace_app_clear p2 n2 H2 n1) by assumption.
    rewrite (replace_app_clear p2 n2 H2 p1), (replace_match p1) by assumption.
    f_equal. apply (IH (length r)); [|reflexivity].
    subst n r. rewrite length_skipn. cbn [length]. lia. }
  destruct (startswith (c :: s) p2) eqn:E2.
  { apply startswith_split in E2. rewrite E2.
    set (r := skipn (length p2) (c :: s)).
    rewrite (replace_match p2), (replace_app_clear p1 n1 H1 n2) by assumption.
    rewrite (replace_app_clear p1 n1 H1 p2), (replace_match p2) by assumption.
    f_equal. apply (IH (length r)); [|reflexivity].
    subst n r. rewrite length_skipn. cbn [length]. lia. }
  rewrite (replace_copy p1 n1 c s), (replace_copy p2 n2 c s) by assumption.
  rewrite (replace_copy p2), (replace_copy p1); try assumption.
  - f_equal. apply (IH (length s)); [subst n; simpl; lia | reflexivity].
  - destruct (startswith (c :: replace s p2 n2) p1) eqn:E; [|reflexivity].
    rewrite <- E1. symmetry.
    rewrite <- (replace_copy p2 n2) in E by assumption.
    apply (replace_prefix_origin p2 n2 H2 p1 A12 (c :: s) 0%nat); [lia|exact E].
  - destruct (startswith (c :: replace s p1 n1) p2) eqn:E; [|reflexivity].
    rewrite <- E2. symmetry.
    rewrite <- (replace_copy p1 n1) in E by assumption.
    apply (replace_prefix_origin p1 n1 H1 p2 A21 (c :: s) 0%nat); [lia|exact E].
Qed.

Lemma rule_eqb_eq (r1 r2 : text * text) : rule_eqb r1 r2 = true <-> r1 = r2.
Proof.
  unfold rule_eqb. rewrite andb_true_iff, !text_eqb_eq.
  destruct r1, r2; cbn [fst snd]. split.
  - intros [-> ->]; reflexivity.
  - intros [= -> ->]; auto.
Qed.

Lemma pairwise_commuting_inv (rs : list (text * text)) :
  pairwise_commuting rs = true ->
  forall r1 r2, In r1 rs -> In r2 rs -> r1 = r2 \/ commuting r1 r2 = true.
Proof.
  unfold pairwise_commuting. rewrite forallb_forall. intros H r1 r2 H1 H2.
  specialize (H r1 H1). rewrite forallb_forall in H. specialize (H r2 H2).
  apply orb_true_iff in H. rewrite rule_eqb_eq in H. exact H.
Qed.

(** Rules that commute two by two can be applied in any order. *)
Lemma rewrite_with_perm (l1 l2 : list (text * text)) :
  Permutation l1 l2 ->
  (forall r1 r2, In r1 l1 -> In r2 l1 -> r1 = r2 \/ commuting r1 r2 = true) ->
  forall s, rewrite_with l1 s = rewrite_with l2 s.
Proof.
  induction 1 as [|x l1 l2 HP IH|x y l|l1 l2 l3 HP1 IH1 HP2 IH2]; intros H s.
  - reflexivity.
  - cbn [rewrite_with fold_left]. fold (rewrite_with l1) (rewrite_with l2).
    apply IH. intros r1 r2 H1 H2. apply H; right; assumption.
  - cbn [rewrite_with fold_left]. f_equal.
    destruct (H y x (or_introl eq_refl) (or_intror (or_introl eq_refl)))
      as [-> | C]; [reflexivity|].
    destruct x as [p1 n1], y as [p2 n2]. cbn [fst snd].
    apply replace_commute. exact C.
  - rewrite IH1 by assumption. apply IH2. intros r1 r2 H1 H2.
    apply H; eapply Permutation_in; try eassumption;
      apply Permutation_sym; assumption.
Qed.

Lemma rules_commute_pairwise : pairwise_commuting rules = true.
Proof. vm_compute. reflexivity. Qed.

(** ** What a pass does to each entry *)

(** A turn of the loop, however it ends, leaves every other entry, the
    names and the kind of the target as they were. *)
Lemma patch_elsewhere (t t' : target) (f : text) (o : outcome unit) :
  patch t f = (o, t') ->
  names t' = names t
  /\ forall g, g <> f -> entry t' g = entry t g /\ load t' g = load t g.
Proof.
  intros H. pose proof (patch_turn t f) as T. rewrite H in T.
  inversion T as [e L | c L E | c L E S | c l es data bs L E Ht El Ee];
    subst; auto.
  split.
  - cbn [names]. apply store_present_names. congruence.
  - intros g Hg. unfold load. cbn [entry].
    rewrite lookup_store_other by assumption. auto.
Qed.

(** A turn of the loop that completes has read the file and leaves it
    holding the transformed text. *)
Lemma patch_result (t t' : target) (f : text) :
  patch t f = (Return tt, t') ->
  exists c, load t f = Return c /\ load t' f = Return (transform c).
Proof.
  intros H. pose proof (patch_turn t f) as T. rewrite H in T.
  inversion T as [e L | c L E | c L E S | c l es data bs L E Ht El Ee];
    subst.
  - exists c. rewrite E. auto.
  - exists c. split; [exact L|]. apply load_stored; [|exact Ee].
    apply transform_read. eapply load_read; exact L.
Qed.

(** Through a pass that completes, a file of the pass goes from its text
    to the transform of it, and any other file keeps its text. *)
Lemma patch_all_load (l : list text) (t t' : target) (f c : text) :
  patch_all t l = (Return tt, t') ->
  load t f = Return c ->
  (In f l -> load t' f = Return (transform c))
  /\ (~ In f l -> load t' f = Return c).
Proof.
  revert t c; induction l as [|g l IH]; intros t c; cbn [patch_all].
  - intros [= <-] L. split; [intros [] | auto].
  - destruct (patch_print t g) as [[[]|e] t1] eqn:P; [|discriminate].
    apply patch_print_return in P. destruct P as [P _].
    intros H L.
    destruct (list_eq_dec Z.eq_dec f g) as [-> | N].
    + destruct (patch_result _ _ _ P) as (c0 & L0 & L1).
      assert (c0 = c) by congruence. subst c0.
      destruct (IH _ _ H L1) as [I1 I2].
      split; [|intros Hn; exfalso; apply Hn; left; reflexivity].
      intros _. destruct (in_dec (list_eq_dec Z.eq_dec) g l) as [Hi | Hi].
      * rewrite (I1 Hi), transform_idempotent. reflexivity.
      * exact (I2 Hi).
    + destruct (patch_elsewhere _ _ _ _ P) as [_ F1].
      destruct (F1 f N) as [_ Fl]. rewrite <- Fl in L.
      destruct (IH _ _ H L) as [I1 I2]. split.
      * intros [E | Hi]; [congruence | auto].
      * intros Hn. apply I2. intros Hi. apply Hn. right; exact Hi.
Qed.

(** A pass that completes has read every file of the pass. *)
Lemma patch_all_reads (l : list text) (t t' : target) (f : text) :
  patch_all t l = (Return tt, t') -> In f l ->
  exists c, load t f = Return c.
Proof.
  revert t; induction l as [|g l IH]; intros t; cbn [patch_all];
    [intros _ []|].
  destruct (patch_print t g) as [[[]|e] t1] eqn:P; [|discriminate].
  apply patch_print_return in P. destruct P as [P _].
  intros H Hin.
  destruct (list_eq_dec Z.eq_dec f g) as [-> | N].
  - destruct (patch_result _ _ _ P) as (c & L & _). eauto.
  - destruct Hin as [E | Hin]; [congruence|].
    destruct (IH _ H Hin) as (c & L).
    destruct (patch_elsewhere _ _ _ _ P) as [_ F1].
    destruct (F1 f N) as [_ Fl]. exists c. congruence.
Qed.

(** A name is reported only if its file, as the pass found the directory,
    has a text that the transform changes. *)
Lemma reported_changed (l : list text) (t : target) (f : text) :
  In f (reported t l) -> changes t f = true.
Proof.
  revert t; induction l as [|g l IH]; intros t; cbn [reported]; [intros []|].
  destruct (patch_print t g) as [[[]|e] t1] eqn:P; [|intros []].
  apply patch_print_return in P. destruct P as [P _].
  rewrite in_app_iff. intros [H | H].
  - destruct (changes t g) eqn:C; [|destruct H].
    destruct H as [<- | []]. exact C.
  - pose proof (IH _ H) as C1.
    destruct (list_eq_dec Z.eq_dec f g) as [-> | N].
    + apply patch_settles, patch_settled in P. destruct P as [_ P].
      congruence.
    + destruct (patch_elsewhere _ _ _ _ P) as [_ F1].
      destruct (F1 f N) as [_ Fl]. unfold changes in *. rewrite <- Fl.
      exact C1.
Qed.

Lemma cs_files_endswith (listing : list text) (f : text) :
  In f (cs_files listing) <-> In f listing /\ endswith f (str ".cs") = true.
Proof.
  unfold cs_files.
  apply (filter_In (fun f => endswith f (str ".cs"))).
Qed.

(** ** The codec, from bytes to text and back *)

Lemma encode_1 (b0 : Z) : 0 <= b0 < 0x80 -> encode_char b0 = Some [b0].
Proof. intros H. unfold encode_char. settle_tests. reflexivity. Qed.

Lemma encode_2 (b0 b1 : Z) :
  0xC2 <= b0 < 0xE0 -> 0x80 <= b1 < 0xC0 ->
  encode_char ((b0 - 0xC0) * 64 + (b1 - 0x80)) = Some [b0; b1].
Proof.
  intros H0 H1. unfold encode_char.
  set (c := (b0 - 0xC0) * 64 + (b1 - 0x80)).
  assert (Hc : 0x80 <= c < 0x800) by (unfold c; lia).
  assert (E1 : c / 64 = b0 - 0xC0)
    by (symmetry; apply (Z.div_unique c 64 _ (b1 - 0x80)); unfold c; lia).
  assert (E2 : c mod 64 = b1 - 0x80)
    by (symmetry; apply (Z.mod_unique c 64 (b0 - 0xC0)); unfold c; lia).
  rewrite E1, E2. clearbody c. settle_tests.
  do 2 f_equal; [lia | f_equal; lia].
Qed.

Lemma encode_3 (b0 b1 b2 : Z) :
  0xE0 <= b0 < 0xF0 -> 0x80 <= b1 < 0xC0 -> 0x80 <= b2 < 0xC0 ->
  let c := (b0 - 0xE0) * 4096 + (b1 - 0x80) * 64 + (b2 - 0x80) in
  0x800 <= c -> is_surrogate c = false ->
  encode_char c = Some [b0; b1; b2].
Proof.
  intros H0 H1 H2 c Hc Hs. unfold encode_char. rewrite Hs.
  assert (Hu : c < 0x10000) by (unfold c; lia).
  assert (E1 : c / 4096 = b0 - 0xE0).
  { symmetry.
    apply (Z.div_unique c 4096 _ ((b1 - 0x80) * 64 + (b2 - 0x80)));
      unfold c; lia. }
  assert (E2 : c / 64 = (b0 - 0xE0) * 64 + (b1 - 0x80))
    by (symmetry; apply (Z.div_unique c 64 _ (b2 - 0x80)); unfold c; lia).
  assert (E3 : (c / 64) mod 64 = b1 - 0x80).
  { rewrite E2. symmetry.
    apply (Z.mod_unique _ 64 (b0 - 0xE0)); lia. }
  assert (E4 : c mod 64 = b2 - 0x80).
  { symmetry.
    apply (Z.mod_unique c 64 ((b0 - 0xE0) * 64 + (b1 - 0x80))); unfold c; lia. }
  rewrite E3, E4, E1. clearbody c. settle_tests.
  do 2 f_equal; [lia | f_equal; [lia | f_equal; lia]].
Qed.

Lemma encode_4 (b0 b1 b2 b3 : Z) :
  0xF0 <= b0 < 0xF5 -> 0x80 <= b1 < 0xC0 -> 0x80 <= b2 < 0xC0 ->
  0x80 <= b3 < 0xC0 ->
  let c := (b0 - 0xF0) * 262144 + (b1 - 0x80) * 4096
           + (b2 - 0x80) * 64 + (b3 - 0x80) in
  0x10000 <= c < 0x110000 ->
  encode_char c = Some [b0; b1; b2; b3].
Proof.
  intros H0 H1 H2 H3 c Hc. unfold encode_char.
  assert (E1 : c / 262144 = b0 - 0xF0).
  { symmetry.
    apply (Z.div_unique c 262144 _
             ((b1 - 0x80) * 4096 + (b2 - 0x80) * 64 + (b3 - 0x80)));
      unfold c; lia. }
  assert (E2 : c / 4096 = (b0 - 0xF0) * 64 + (b1 - 0x80)).
  { symmetry.
    apply (Z.div_unique c 4096 _ ((b2 - 0x80) * 64 + (b3 - 0x80)));
      unfold c; lia. }
  assert (E3 : c / 64 = (b0 - 0xF0) * 4096 + (b1 - 0x80) * 64 + (b2 - 0x80))
    by (symmetry; apply (Z.div_unique c 64 _ (b3 - 0x80)); unfold c; lia).
  assert (E4 : (c / 4096) mod 64 = b1 - 0x80).
  { rewrite E2. symmetry. apply (Z.mod_unique _ 64 (b0 - 0xF0)); lia. }
  assert (E5 : (c / 64) mod 64 = b2 - 0x80).
  { rewrite E3. symmetry.
    apply (Z.mod_unique _ 64 ((b0 - 0xF0) * 64 + (b1 - 0x80))); lia. }
  assert (E6 : c mod 64 = b3 - 0x80).
  { symmetry.
    apply (Z.mod_unique c 64
             ((b0 - 0xF0) * 4096 + (b1 - 0x80) * 64 + (b2 - 0x80)));
      unfold c; lia. }
  assert (Es : is_surrogate c = false).
  { unfold is_surrogate. rewrite andb_false_iff, Z.leb_gt, Z.ltb_ge. lia. }
  rewrite E4, E5, E6, E1. clearbody c. settle_tests.
  do 2 f_equal; [lia | f_equal; [lia | f_equal; [lia | f_equal; lia]]].
Qed.

(** What decodes is the encoding of what it decodes to: the strict decoder
    accepts one byte sequence per text. *)
Lemma decode_encode (bs : bytes) (t : text) :
  utf8_decode bs = Some t -> utf8_encode t = Some bs.
Proof.
  remember (length bs) as n eqn:En.
  revert bs t En; induction n as [n IH] using lt_wf_ind; intros bs t En.
  assert (Hstep : forall c pre r, (length r < n)%nat ->
            encode_char c = Some pre ->
            option_map (cons c) (utf8_decode r) = Some t ->
            utf8_encode t = Some (pre ++ r)).
  { intros c pre r Hr Hc. destruct (utf8_decode r) as [t'|] eqn:E; [|discriminate].
    intros [= <-]. cbn [utf8_encode].
    rewrite Hc, (IH _ Hr r t' eq_refl E). reflexivity. }
  destruct bs as [|b0 r1]; [intros [= <-]; reflexivity|].
  cbn [utf8_decode]. subst n. cbn [length] in Hstep.
  destruct ((0 <=? b0) && (b0 <? 0x80)) eqn:T1.
  { apply (Hstep b0 [b0] r1); [lia|]. apply encode_1.
    rewrite andb_true_iff, Z.leb_le, Z.ltb_lt in T1. lia. }
  destruct ((0xC2 <=? b0) && (b0 <? 0xE0)) eqn:T2.
  { destruct r1 as [|b1 r2]; [discriminate|].
    destruct (is_cont b1) eqn:C1; [|discriminate].
    apply (Hstep _ [b0; b1] r2); [cbn [length]; lia|].
    unfold is_cont in C1.
    rewrite andb_true_iff, Z.leb_le, Z.ltb_lt in T2, C1.
    apply encode_2; lia. }
  destruct ((0xE0 <=? b0) && (b0 <? 0xF0)) eqn:T3.
  { destruct r1 as [|b1 [|b2 r3]]; try discriminate. cbv zeta.
    set (c := (b0 - 0xE0) * 4096 + (b1 - 0x80) * 64 + (b2 - 0x80)).
    destruct (is_cont b1 && is_cont b2 && (0x800 <=? c)
              && negb (is_surrogate c)) eqn:C; [|discriminate].
    apply (Hstep _ [b0; b1; b2] r3); [cbn [length]; lia|].
    unfold is_cont in C.
    rewrite !andb_true_iff, negb_true_iff in C.
    rewrite andb_true_iff in T3.
    rewrite !Z.leb_le, !Z.ltb_lt in *.
    apply encode_3; tauto. }
  destruct ((0xF0 <=? b0) && (b0 <? 0xF5)) eqn:T4; [|discriminate].
  destruct r1 as [|b1 [|b2 [|b3 r4]]]; try discriminate. cbv zeta.
  set (c := (b0 - 0xF0) * 262144 + (b1 - 0x80) * 4096
            + (b2 - 0x80) * 64 + (b3 - 0x80)).
  destruct (is_cont b1 && is_cont b2 && is_cont b3
            && (0x10000 <=? c) && (c <? 0x110000)) eqn:C; [|discriminate].
  apply (Hstep _ [b0; b1; b2; b3] r4); [cbn [length]; lia|].
  unfold is_cont in C.
  rewrite !andb_true_iff in C. rewrite andb_true_iff in T4.
  rewrite !Z.leb_le, !Z.ltb_lt in *.
  apply encode_4; tauto.
Qed.

Lemma decode_app (x y : bytes) (a : text) :
  utf8_decode x = Some a ->
  utf8_decode (x ++ y) = option_map (app a) (utf8_decode y).
Proof.
  intros D. pose proof (decode_scalar _ _ D) as S.
  apply decode_encode in D. revert x D S.
  induction a as [|c a IH]; intros x; cbn [utf8_encode forallb].
  - intros [= <-] _. cbn [app]. destruct (utf8_decode y); reflexivity.
  - destruct (encode_char c) as [pc|] eqn:Ec; [|discriminate].
    destruct (utf8_encode a) as [x'|] eqn:Ea; [|discriminate].
    intros [= <-]. rewrite andb_true_iff. intros [Sc Sa].
    destruct (encode_char_decode c (x' ++ y) Sc) as (pc' & Ec' & Dc).
    assert (pc' = pc) by congruence. subst pc'.
    rewrite <- app_assoc, Dc, (IH x' eq_refl Sa).
    destruct (utf8_decode y); reflexivity.
Qed.

Lemma plain_codec (p : text) :
  plain p = true ->
  utf8_encode p = Some p /\ utf8_decode p = Some p
  /\ forallb read_char p = true.
Proof.
  unfold plain. induction p as [|c p IH]; cbn [forallb]; [auto|].
  rewrite !andb_true_iff, negb_true_iff, Z.leb_le, Z.ltb_lt, Z.eqb_neq.
  intros [[[H0 H1] H2] Hp]. destruct (IH Hp) as (E & D & R).
  cbn [utf8_encode]. rewrite encode_1, E, decode_1, D by lia.
  repeat split; [|exact R].
  unfold read_char. apply andb_true_iff. split.
  - apply is_scalar_spec. lia.
  - apply negb_true_iff, Z.eqb_neq. exact H2.
Qed.

(** No byte of the encoding of a text without carriage return is a
    carriage return. *)
(** Name the list an encoding equation gives, without computing in it. *)
Ltac take_bytes E :=
  match type of E with
  | Some ?l = Some ?pc => assert (pc = l) by congruence; subst pc; clear E
  end.

Lemma encode_no_cr (t : text) (bs : bytes) :
  forallb read_char t = true -> utf8_encode t = Some bs -> ~ In 13 bs.
Proof.
  revert bs; induction t as [|c t IH]; intros bs; cbn [forallb utf8_encode].
  - intros _ [= <-] [].
  - rewrite andb_true_iff. intros [Hc Ht].
    destruct (encode_char c) as [pc|] eqn:Ec; [|discriminate].
    destruct (utf8_encode t) as [x|] eqn:Et; [|discriminate].
    intros [= <-]. rewrite in_app_iff. intros [H | H]; [|eapply IH; eauto].
    unfold read_char in Hc.
    rewrite andb_true_iff, negb_true_iff, Z.eqb_neq in Hc.
    destruct Hc as [_ Hc].
    pose proof (Z.mod_pos_bound c 64 ltac:(lia)) as B1.
    pose proof (Z.mod_pos_bound (c / 64) 64 ltac:(lia)) as B2.
    pose proof (Z.mod_pos_bound (c / 4096) 64 ltac:(lia)) as B3.
    unfold encode_char in Ec.
    destruct (Z.ltb_spec c 0); [discriminate|].
    destruct (Z.ltb_spec c 0x80).
    { take_bytes Ec. apply in_inv in H. destruct H as [H | []]. congruence. }
    destruct (Z.ltb_spec c 0x800).
    { take_bytes Ec.
      assert (0 <= c / 64) by (apply Z.div_pos; lia).
      repeat (apply in_inv in H; destruct H as [H | H]); try lia.
      destruct H. }
    destruct (Z.ltb_spec c 0x10000).
    { destruct (is_surrogate c); [discriminate|]. take_bytes Ec.
      assert (0 <= c / 4096) by (apply Z.div_pos; lia).
      repeat (apply in_inv in H; destruct H as [H | H]); try lia.
      destruct H. }
    destruct (c <? 0x110000); [|discriminate].
    take_bytes Ec.
    assert (0 <= c / 262144) by (apply Z.div_pos; lia).
    repeat (apply in_inv in H; destruct H as [H | H]); try lia.
    destruct H.
Qed.

Lemma transform_rule (r : text * text) (a b : text) :
  In r rules ->
  transform (a ++ fst r ++ b) = transform a ++ snd r ++ transform b.
Proof.
  intros [<- | [<- | [<- | [<- | []]]]]; cbn [fst snd].
  - apply transform_GETUTCDATE.
  - apply transform_datetime.
  - apply transform_NVARCHAR.
  - apply transform_nvarchar.
Qed.

Lemma rules_plain (r : text * text) :
  In r rules -> plain (fst r) = true /\ plain (snd r) = true /\ fst r <> snd r.
Proof.
  intros [<- | [<- | [<- | [<- | []]]]]; repeat split;
    solve [vm_compute; reflexivity | vm_compute; discriminate].
Qed.

Lemma no_cr_read (t : text) :
  forallb is_scalar t = true -> ~ In 13 t -> forallb read_char t = true.
Proof.
  induction t as [|c t IH]; cbn [forallb In]; [reflexivity|].
  rewrite andb_true_iff. intros [Hc Ht] N.
  rewrite IH by tauto. unfold read_char. rewrite Hc.
  destruct (Z.eqb_spec c 13); [|reflexivity]. subst c. tauto.
Qed.

(** * Further properties of the script *)

(** X1. Each of the four patterns is replaced by its replacement wherever
    it stands, whatever surrounds it, and the text on its two sides goes
    through the transform on its own. *)
Theorem every_rule_in_place (r : text * text) (a b : text) :
  In r rules ->
  transform (a ++ fst r ++ b) = transform a ++ snd r ++ transform b.
Proof.
  intros [<- | [<- | [<- | [<- | []]]]]; cbn [fst snd].
  - apply transform_GETUTCDATE.
  - apply transform_datetime.
  - apply transform_NVARCHAR.
  - apply transform_nvarchar.
Qed.

Lemma every_rule_in_place_witness :
  transform (str "b." ++ HasColumnType "datetime" ++ str ";")
  = transform (str "b.") ++ HasColumnType "timestamp with time zone"
    ++ transform (str ";").
Proof.
  apply (every_rule_in_place
           (HasColumnType "datetime", HasColumnType "timestamp with time zone")
           (str "b.") (str ";")).
  right; left; reflexivity.
Defined.


(** X3. The four rules do not interfere, so the order of the four
    [replace] statements is immaterial: applied in any order, they give the
    transform. *)
Theorem rule_order_immaterial (rs : list (text * text)) (s : text) :
  Permutation rs rules -> rewrite_with rs s = transform s.
Proof.
  intros HP. rewrite transform_rewrite. symmetry.
  apply rewrite_with_perm; [apply Permutation_sym; exact HP|].
  apply pairwise_commuting_inv, rules_commute_pairwise.
Qed.

Lemma rule_order_immaterial_witness :
  rewrite_with (rev rules) sample_A = transform sample_A.
Proof.
  apply (rule_order_immaterial (rev rules) sample_A).
  apply Permutation_sym, Permutation_rev.
Defined.

(** X4. A literal that stays apart from the four patterns (none of them
    can begin inside it or run into it) is left where it stands, whatever
    surrounds it: so [HasColumnType("datetime2")], which the second pattern
    does not match because of its closing quote. *)
Theorem literal_untouched (m a b : text) :
  literal_apart rules m = true ->
  transform (a ++ m ++ b) = transform a ++ m ++ transform b.
Proof. apply transform_around. Qed.

Lemma literal_untouched_witness :
  transform (str "b." ++ HasColumnType "datetime2" ++ str ";")
  = transform (str "b.") ++ HasColumnType "datetime2" ++ transform (str ";").
Proof.
  apply (literal_untouched (HasColumnType "datetime2")).
  vm_compute. reflexivity.
Defined.

(** X5. After a run that completes, every candidate was readable and now
    holds the transform of the text it held, free of the four patterns; and
    the directory has the names it had. *)
Theorem run_completed (w w' : world) :
  run w = (Return tt, w') ->
  exists es,
    fs w = Dir true es
    /\ names (fs w') = map fst es
    /\ (forall f, In f (cs_files (map fst es)) ->
          exists c, load (fs w) f = Return c
                    /\ load (fs w') f = Return (transform c)
                    /\ pattern_free (transform c) = true).
Proof.
  rewrite run_unfold.
  destruct (fs w) as [| |[|] es] eqn:F; try discriminate. cbv zeta.
  destruct (patch_all (Dir true es) (cs_files (map fst es)))
    as [[[]|e] t'] eqn:P; [|discriminate].
  intros [= <-]. exists es. cbn [fs].
  split; [reflexivity|]. split.
  - destruct (patch_all_listing _ _ _ P true es eq_refl) as (es' & -> & E).
    exact E.
  - intros f Hf. destruct (patch_all_reads _ _ _ f P Hf) as (c & L).
    exists c. split; [exact L|].
    destruct (patch_all_load _ _ _ f c P L) as [D _].
    split; [exact (D Hf) | apply transform_clean].
Qed.

Lemma run_completed_witness :
  exists es,
    fs sample_world = Dir true es
    /\ names (Dir true [ (str "A.cs", File sample_A_fixed true true);
                         (str "B.cs", File sample_B true true) ])
       = map fst es
    /\ (forall f, In f (cs_files (map fst es)) ->
          exists c, load (fs sample_world) f = Return c
                    /\ load (Dir true [ (str "A.cs", File sample_A_fixed true true);
                                        (str "B.cs", File sample_B true true) ]) f
                       = Return (transform c)
                    /\ pattern_free (transform c) = true).
Proof.
  apply (run_completed sample_world
           (World (Dir true [ (str "A.cs", File sample_A_fixed true true);
                              (str "B.cs", File sample_B true true) ])
                  [fixed_line (str "A.cs"); done_message]
                  [OpListdir; OpRead (str "A.cs"); OpWrite (str "A.cs");
                   OpRead (str "B.cs")])).
  vm_compute. reflexivity.
Defined.

(** X7. A run that completes prints [Fixed:] lines and then the final
    message, and never reports a file falsely: every name in a [Fixed:] line
    is a candidate whose text, as the run found the directory, had one of
    the four patterns, and whose text is now the transform of it. *)
Theorem report_sound (w w' : world) :
  run w = (Return tt, w') ->
  exists es r,
    fs w = Dir true es
    /\ stdout w'
       = stdout w ++ map (fun f => str "Fixed: " ++ f) r ++ [done_message]
    /\ forall f, In f r ->
         In f (cs_files (map fst es))
         /\ exists c, load (fs w) f = Return c
                      /\ pattern_free c = false
                      /\ load (fs w') f = Return (transform c).
Proof.
  rewrite run_unfold.
  destruct (fs w) as [| |[|] es] eqn:F; try discriminate. cbv zeta.
  destruct (patch_all (Dir true es) (cs_files (map fst es)))
    as [[[]|e] t'] eqn:P; [|discriminate].
  intros [= <-].
  exists es, (reported (Dir true es) (cs_files (map fst es))).
  cbn [fs stdout]. split; [reflexivity|]. split.
  - rewrite <- app_assoc. reflexivity.
  - intros f Hf. pose proof (reported_incl _ _ _ Hf) as Hc.
    split; [exact Hc|].
    apply reported_changed, changes_spec in Hf.
    destruct Hf as (c & L & N). exists c. split; [exact L|]. split.
    + destruct (pattern_free c) eqn:E; [|reflexivity].
      apply transform_absent in E. contradiction.
    + destruct (patch_all_load _ _ _ f c P L) as [D _]. exact (D Hc).
Qed.

Lemma report_sound_witness :
  exists es r,
    fs sample_world = Dir true es
    /\ [fixed_line (str "A.cs"); done_message]
       = stdout sample_world
         ++ map (fun f => str "Fixed: " ++ f) r ++ [done_message]
    /\ forall f, In f r ->
         In f (cs_files (map fst es))
         /\ exists c, load (fs sample_world) f = Return c
                      /\ pattern_free c = false
                      /\ load (Dir true [ (str "A.cs", File sample_A_fixed true true);
                                          (str "B.cs", File sample_B true true) ]) f
                         = Return (transform c).
Proof.
  apply (report_sound sample_world
           (World (Dir true [ (str "A.cs", File sample_A_fixed true true);
                              (str "B.cs", File sample_B true true) ])
                  [fixed_line (str "A.cs"); done_message]
                  [OpListdir; OpRead (str "A.cs"); OpWrite (str "A.cs");
                   OpRead (str "B.cs")])).
  vm_compute. reflexivity.
Defined.

(** X9. The strict codec pairs byte sequences and texts one to one: what
    decodes is made of scalar values and encodes back to the same bytes,
    and a text of scalar values encodes to bytes that decode to it. *)
Theorem codec_round_trip :
  (forall bs t,
     utf8_decode bs = Some t ->
     forallb is_scalar t = true /\ utf8_encode t = Some bs)
  /\ (forall t,
        forallb is_scalar t = true ->
        exists bs, utf8_encode t = Some bs /\ utf8_decode bs = Some t).
Proof.
  split.
  - intros bs t D. split; [eapply decode_scalar | apply decode_encode]; eauto.
  - exact encode_decode.
Qed.

Lemma codec_round_trip_witness :
  forallb is_scalar [0x627; 0x41] = true
  /\ utf8_encode [0x627; 0x41] = Some [0xD8; 0xA7; 0x41].
Proof.
  apply (proj1 codec_round_trip [0xD8; 0xA7; 0x41] [0x627; 0x41]).
  reflexivity.
Defined.

(** X10. A file without carriage return, valid UTF-8, whose text has one
    pattern and nothing else for the rules: the turn of the loop replaces
    the bytes of the pattern by the bytes of its replacement and leaves
    every other byte, ASCII or not, as it was. *)
Theorem patch_replaces_bytes (l0 : bool) (es : list (text * node))
        (f : text) (ba bb : bytes) (a b : text) (r : text * text) :
  In r rules ->
  utf8_decode ba = Some a -> utf8_decode bb = Some b ->
  ~ In 13 a -> ~ In 13 b ->
  pattern_free a = true -> pattern_free b = true ->
  lookup es f = Some (File (ba ++ fst r ++ bb) true true) ->
  patch (Dir l0 es) f
  = (Return tt, Dir l0 (store es f (File (ba ++ snd r ++ bb) true true))).
Proof.
  intros Hr Da Db Na Nb Fa Fb El.
  destruct (rules_plain r Hr) as (Pp & Pn & Npn).
  destruct (plain_codec _ Pp) as (Ep & Dp & Rp).
  destruct (plain_codec _ Pn) as (En & _ & _).
  pose proof (no_cr_read a (decode_scalar _ _ Da) Na) as Ra.
  pose proof (no_cr_read b (decode_scalar _ _ Db) Nb) as Rb.
  assert (L : load (Dir l0 es) f = Return (a ++ fst r ++ b)).
  { unfold load. rewrite El.
    rewrite (decode_app ba _ a Da), (decode_app (fst r) _ _ Dp), Db.
    cbn [option_map]. rewrite universal_newlines_id; [reflexivity|].
    rewrite !forallb_app, Ra, Rp, Rb. reflexivity. }
  assert (T : transform (a ++ fst r ++ b) = a ++ snd r ++ b).
  { rewrite (transform_rule r a b Hr), !transform_absent by assumption.
    reflexivity. }
  unfold patch. rewrite L, T.
  assert (N : text_eqb (a ++ snd r ++ b) (a ++ fst r ++ b) = false).
  { apply text_eqb_neq. intros E. apply app_inv_head, app_inv_tail in E.
    congruence. }
  rewrite N. cbn [negb]. unfold save. rewrite El.
  rewrite !encode_app, (decode_encode _ _ Da), En, (decode_encode _ _ Db).
  reflexivity.
Qed.

Lemma patch_replaces_bytes_witness :
  patch (Dir true [(str "A.cs",
                    File ([0xD8; 0xA7] ++ str " = " ++ GETUTCDATE ++ str ";")
                         true true)])
        (str "A.cs")
  = (Return tt,
     Dir true (store [(str "A.cs",
                       File ([0xD8; 0xA7] ++ str " = " ++ GETUTCDATE ++ str ";")
                            true true)]
                     (str "A.cs")
                     (File (([0xD8; 0xA7] ++ str " = ") ++ NOW ++ str ";")
                           true true))).
Proof.
  apply (patch_replaces_bytes true _ (str "A.cs")
           ([0xD8; 0xA7] ++ str " = ") (str ";")
           ([0x627] ++ str " = ") (str ";") (GETUTCDATE, NOW)).
  - left; reflexivity.
  - reflexivity.
  - reflexivity.
  - vm_compute; intuition discriminate.
  - vm_compute; intuition discriminate.
  - vm_compute; reflexivity.
  - vm_compute; reflexivity.
  - vm_compute; reflexivity.
Defined.

(** X11. A file the loop rewrites has no carriage return left: its text
    was read with universal newlines and is written as it is (the
    interpreter being a POSIX one), so a rewritten file loses its CR LF line
    ends, while a file that needs no change keeps its bytes. *)
Theorem rewritten_without_cr (t t' : target) (f : text) :
  patch t f = (Return tt, t') ->
  changes t f = true ->
  exists c bs,
    load t f = Return c
    /\ utf8_encode (transform c) = Some bs
    /\ entry t' f = Some (File bs true true)
    /\ ~ In 13 bs.
Proof.
  intros H C. pose proof (patch_turn t f) as T. rewrite H in T.
  inversion T as [e L | c L E | c L E S | c l es data bs L E Ht El Ee];
    subst.
  - unfold changes in C. rewrite L, E, text_eqb_refl in C. discriminate.
  - exists c, bs. repeat split; auto.
    + cbn [entry]. apply lookup_store_same.
    + eapply encode_no_cr; [|exact Ee].
      apply transform_read. eapply load_read; exact L.
Qed.

Lemma rewritten_without_cr_witness :
  exists c bs,
    load (Dir true [(str "A.cs",
                     File (GETUTCDATE ++ [13; 10] ++ str "x" ++ [13; 10])
                          true true)]) (str "A.cs") = Return c
    /\ utf8_encode (transform c) = Some bs
    /\ entry (Dir true [(str "A.cs",
                         File (NOW ++ [10] ++ str "x" ++ [10]) true true)])
             (str "A.cs")
       = Some (File bs true true)
    /\ ~ In 13 bs.
Proof.
  apply (rewritten_without_cr
           (Dir true [(str "A.cs",
                       File (GETUTCDATE ++ [13; 10] ++ str "x" ++ [13; 10])
                            true true)])).
  - vm_compute. reflexivity.
  - vm_compute. reflexivity.
Defined.
